(** * TorFlow slice selection and bandwidth aggregation

    A shallow embedding of [src/torflow/torflow-slice.c] and
    [src/torflow/torflow-aggregator.c], with the properties of the
    specification stated and settled against it.

    Conventions of the embedding:
    - a [guint] is a [Z] in [0, 2^32); arithmetic on it wraps and the wrap is
      written out with [guint_wrap];
    - a [gint] is a [Z] in [-2^31, 2^31); C leaves its overflow undefined, the
      model writes the two's complement wrap ([gint_wrap]) and the theorems
      that need it assume the value stays in range;
    - a [gdouble] is a binary64 primitive float;
    - a [GHashTable] with string keys is a [gmap string V]; an iteration over
      it (iterator or [g_hash_table_foreach]) visits [map_to_list] in order;
    - a [gchar*] that may be NULL is an [option string];
    - logging and file system calls are recorded as a list of events, and the
      answers of the environment ([rand], [unlink], [symlink], the clock) are
      arguments of the functions that ask for them; [fopen] is taken to
      succeed, the code does not look at its answer;
    - the strings that the tables hold as keys are followed through
      [g_strdup], [g_free] and the key and value destructors: beside each
      table whose keys can be released behind its back, the model keeps the
      set of its keys whose string has been released while the table still
      points to it. Reading such a string, or releasing it again, is
      undefined in C: the run ends in [Undefined] and nothing is said about
      what the program does from there. A table reads the string it holds
      for a key whenever it is handed a key of the same content; that two
      different identities may share a 32-bit hash, which would make it
      read a further key, is left out. *)

From Stdlib Require Import ZArith Floats Ascii String Lia.
From stdpp Require Import gmap strings list fin_maps pretty.

Open Scope Z_scope.

#[local] Set Warnings "-clear-no-such-hyp".

(** ** GLib and libc, as far as the two files use them, after their
    reference manuals *)

Module GLib.

Definition G_MAXUINT : Z := 4294967295.
Definition G_MAXINT : Z := 2147483647.
Definition G_MININT : Z := -2147483648.
Definition RAND_MAX : Z := 2147483647.

Definition guint_wrap (z : Z) : Z := z mod 4294967296.
Definition gint_wrap (z : Z) : Z := (z + 2147483648) mod 4294967296 - 2147483648.

Definition is_guint (z : Z) : Prop := 0 <= z <= G_MAXUINT.
Definition is_gint (z : Z) : Prop := G_MININT <= z <= G_MAXINT.

(** [GUINT_TO_POINTER] and [GPOINTER_TO_UINT]: the pointer carries the
    number itself, so the count 0 is the NULL pointer. *)
Definition NULL : Z := 0.
Definition GUINT_TO_POINTER (n : Z) : Z := n.
Definition GPOINTER_TO_UINT (p : Z) : Z := p.

(** Undefined behaviour ends a run; a run that stays within what C defines
    returns. *)
Inductive Outcome (A : Type) : Type :=
| Undefined
| Returns (a : A).
Arguments Undefined {A}.
Arguments Returns {A} a.

#[global] Instance Outcome_ret : MRet Outcome := λ A a, Returns a.
#[global] Instance Outcome_bind : MBind Outcome :=
  λ A B f o, match o with Undefined => Undefined | Returns a => f a end.
#[global] Instance Outcome_fmap : FMap Outcome :=
  λ A B f o, match o with Undefined => Undefined | Returns a => Returns (f a) end.

(** A loop over a list whose body may leave defined behaviour. *)
Fixpoint for_each {A S} (body : S → A → Outcome S) (state : S) (l : list A) : Outcome S :=
  match l with
  | [] => Returns state
  | a :: l => state ← body state a; for_each body state l
  end.

(** A string pointer as a caller gets it: the string is still allocated, or
    it has been released and the pointer dangles (the model remembers what
    the string held). *)
Inductive gchar_ptr :=
| Live (s : string)
| Dangling (was : string).

#[global] Instance gchar_ptr_eq_dec : EqDecision gchar_ptr.
Proof. solve_decision. Defined.

(** The keys of a table whose strings may be released behind its back:
    [released] is the set of its keys whose string has been released.

    A table function that is handed a key ([g_hash_table_lookup],
    [g_hash_table_replace], [g_hash_table_insert], [g_hash_table_steal])
    compares it with the key it holds for that content, and so reads that
    string. *)
Definition key_compared (released : gset string) (key : string) : Outcome () :=
  if decide (key ∈ released) then Undefined else Returns ().

(** Every key of the table is read (a walk that looks at the keys, a merge
    that hashes them) or released ([g_hash_table_destroy] of a table whose
    key destructor is [g_free]). *)
Definition keys_touched (released : gset string) : Outcome () :=
  if decide (released = ∅) then Returns () else Undefined.

(** Hash tables from identities to pointer-sized values: what the table
    holds, by the content of the keys.

    [g_hash_table_replace] stores the key it is handed; a table that owns
    its keys releases the one it held for that content. [g_hash_table_insert]
    keeps the key the table holds when there is one, and hands the value it
    replaces to the value destructor: the model returns that value beside
    the table. [g_hash_table_steal] releases nothing. *)
Definition g_hash_table_lookup (table : gmap string Z) (key : string) : Z :=
  default NULL (table !! key).
Definition g_hash_table_replace {V} (table : gmap string V) (key : string) (value : V)
  : gmap string V := <[key := value]> table.
Definition g_hash_table_insert {V} (table : gmap string V) (key : string) (value : V)
  : gmap string V * option V := (<[key := value]> table, table !! key).
Definition g_hash_table_steal {V} (table : gmap string V) (key : string)
  : gmap string V := delete key table.
Definition g_hash_table_size {V} (table : gmap string V) : Z :=
  Z.of_nat (size table).
Definition g_hash_table_foreach {V S} (table : gmap string V)
    (func : string → V → S → S) (user_data : S) : S :=
  foldl (λ acc kv, func kv.1 kv.2 acc) user_data (map_to_list table).

(** Queues of identities. [g_queue_peek_nth] answers NULL off the end. *)
Definition g_queue_push_tail (queue : list string) (data : string) : list string :=
  queue ++ [data].
Definition g_queue_get_length (queue : list string) : Z := Z.of_nat (length queue).
Definition g_queue_peek_nth (queue : list string) (n : Z) : option string :=
  if n <? 0 then None else queue !! Z.to_nat n.

(** Strings are read as C strings: the content ends at the first NUL. *)
Definition byte (c : ascii) : Z := Z.of_N (N_of_ascii c).
Definition head_byte (s : string) : Z :=
  match s with EmptyString => 0 | String a _ => byte a end.

Definition g_ascii_tolower (c : ascii) : Z :=
  let n := byte c in if (65 <=? n) && (n <=? 90) then n + 32 else n.

(** [g_ascii_strcasecmp]: walk both strings while neither has ended,
    comparing lower-cased bytes; answer the first difference, or the
    difference of the bytes where the walk stopped. *)
Fixpoint g_ascii_strcasecmp (s1 s2 : string) : Z :=
  match s1, s2 with
  | String a r1, String b r2 =>
      if (byte a =? 0) || (byte b =? 0) then byte a - byte b
      else
        let c1 := g_ascii_tolower a in
        let c2 := g_ascii_tolower b in
        if c1 =? c2 then g_ascii_strcasecmp r1 r2 else c1 - c2
  | _, _ => head_byte s1 - head_byte s2
  end.

(** The bytes of a C string, and equality up to ASCII case folding. *)
Fixpoint cstr (s : string) : list ascii :=
  match s with
  | EmptyString => []
  | String a r => if byte a =? 0 then [] else a :: cstr r
  end.
Definition ascii_caseless_eq (s1 s2 : string) : Prop :=
  map g_ascii_tolower (cstr s1) = map g_ascii_tolower (cstr s2).

End GLib.

(** ** C doubles *)

Module CDouble.
Import GLib.

(** Conversion of an integer to [gdouble] (exact below 2^53). *)
Definition of_Z (z : Z) : float :=
  if z <? 0 then PrimFloat.opp (PrimFloat.of_uint63 (Uint63.of_Z (- z)))
  else PrimFloat.of_uint63 (Uint63.of_Z z).

(** The integer part of a finite double, rounding toward zero. *)
Definition Ztrunc (x : float) : option Z :=
  match Prim2SF x with
  | S754_zero _ => Some 0
  | S754_finite s m e =>
      let mag := if 0 <=? e then Z.shiftl (Z.pos m) e else Z.shiftr (Z.pos m) (- e) in
      Some (if s then - mag else mag)
  | _ => None
  end.

(** [floor], as an integer. *)
Definition Zfloor (x : float) : option Z :=
  match Prim2SF x with
  | S754_zero _ => Some 0
  | S754_finite s m e =>
      if 0 <=? e then
        let mag := Z.shiftl (Z.pos m) e in Some (if s then - mag else mag)
      else
        let q := Z.shiftr (Z.pos m) (- e) in
        if s then
          Some (if Z.shiftl q (- e) =? Z.pos m then - q else - q - 1)
        else Some q
  | _ => None
  end.

(** [(gint)x]: truncation; a NaN, an infinity or a value out of range is
    undefined in C and gives INT_MIN on x86-64. *)
Definition to_gint (x : float) : Z :=
  match Ztrunc x with
  | Some z => if (G_MININT <=? z) && (z <=? G_MAXINT) then z else G_MININT
  | None => G_MININT
  end.

(** [(guint)floor(x)]: out of range is undefined in C, the model wraps. *)
Definition floor_to_guint (x : float) : Z :=
  match Zfloor x with
  | Some z => guint_wrap z
  | None => 0
  end.

Definition is_nan (x : float) : bool := negb (PrimFloat.eqb x x).

(** [fmax]: the larger argument, a NaN giving way to the other one. *)
Definition fmax (x y : float) : float :=
  if is_nan x then y
  else if is_nan y then x
  else if PrimFloat.ltb x y then y else x.

End CDouble.

(** ** Collaborators outside the two files *)

Inductive LogLevel := LOG_ERROR | LOG_WARNING | LOG_MESSAGE | LOG_INFO.

#[global] Instance LogLevel_eq_dec : EqDecision LogLevel.
Proof. solve_decision. Defined.

(** Modelled from the spec: the relay record of [torflow.h], which is not
    part of the sources. Section 3 of the specification lists its fields:
    identity, nickname, the role flags, descriptor and advertised bandwidth
    and the running measurement count. *)
Record TorFlowRelay := mkRelay {
  relay_nickname : string;
  relay_identity : string;
  relay_isAuth : bool;
  relay_isExit : bool;
  relay_descriptorBandwidth : Z;
  relay_advertisedBandwidth : Z;
  relay_measureCount : Z
}.

Definition torflowrelay_getIdentity (relay : TorFlowRelay) : string := relay_identity relay.
Definition torflowrelay_getIsAuth (relay : TorFlowRelay) : bool := relay_isAuth relay.
Definition torflowrelay_getIsExit (relay : TorFlowRelay) : bool := relay_isExit relay.

(** ** torflow-slice.c *)

Module Slice.
Import GLib.

(** The last two fields are no fields of the C struct: they are the keys of
    [entries] and of [exits] whose string has been released while the table
    still points to it (the three tables own their keys, lines 87-89). The
    keys of [auths] are released only where the table lets go of them. *)
Record TorFlowSlice := mkSlice {
  sliceID : Z;
  percentile : float;
  numProbesPerRelay : Z;
  totalProbesRemaining : Z;
  relayIDSearch : option string;
  relayIDFound : bool;
  entries : gmap string Z;
  exits : gmap string Z;
  auths : gmap string Z;
  entries_released : gset string;
  exits_released : gset string
}.

Definition set_totalProbesRemaining (slice : TorFlowSlice) (n : Z) : TorFlowSlice :=
  mkSlice (sliceID slice) (percentile slice) (numProbesPerRelay slice) n
    (relayIDSearch slice) (relayIDFound slice)
    (entries slice) (exits slice) (auths slice)
    (entries_released slice) (exits_released slice).

Definition set_cache (slice : TorFlowSlice) (search : option string) (found : bool)
  : TorFlowSlice :=
  mkSlice (sliceID slice) (percentile slice) (numProbesPerRelay slice)
    (totalProbesRemaining slice) search found
    (entries slice) (exits slice) (auths slice)
    (entries_released slice) (exits_released slice).

Definition set_relayIDFound (slice : TorFlowSlice) (found : bool) : TorFlowSlice :=
  set_cache slice (relayIDSearch slice) found.

Definition set_entries (slice : TorFlowSlice) (table : gmap string Z) : TorFlowSlice :=
  mkSlice (sliceID slice) (percentile slice) (numProbesPerRelay slice)
    (totalProbesRemaining slice) (relayIDSearch slice) (relayIDFound slice)
    table (exits slice) (auths slice)
    (entries_released slice) (exits_released slice).

Definition set_exits (slice : TorFlowSlice) (table : gmap string Z) : TorFlowSlice :=
  mkSlice (sliceID slice) (percentile slice) (numProbesPerRelay slice)
    (totalProbesRemaining slice) (relayIDSearch slice) (relayIDFound slice)
    (entries slice) table (auths slice)
    (entries_released slice) (exits_released slice).

Definition set_auths (slice : TorFlowSlice) (table : gmap string Z) : TorFlowSlice :=
  mkSlice (sliceID slice) (percentile slice) (numProbesPerRelay slice)
    (totalProbesRemaining slice) (relayIDSearch slice) (relayIDFound slice)
    (entries slice) (exits slice) table
    (entries_released slice) (exits_released slice).

Definition set_released (slice : TorFlowSlice) (of_entries of_exits : gset string)
  : TorFlowSlice :=
  mkSlice (sliceID slice) (percentile slice) (numProbesPerRelay slice)
    (totalProbesRemaining slice) (relayIDSearch slice) (relayIDFound slice)
    (entries slice) (exits slice) (auths slice)
    of_entries of_exits.

(** Every probe count of the slice is a [guint]. *)
Definition counts_are_guint (slice : TorFlowSlice) : Prop :=
  map_Forall (λ _ v, is_guint v) (entries slice) ∧
  map_Forall (λ _ v, is_guint v) (exits slice) ∧
  map_Forall (λ _ v, is_guint v) (auths slice).

(** Every key string of the entries and exits tables is still allocated. *)
Definition keys_allocated (slice : TorFlowSlice) : Prop :=
  entries_released slice = ∅ ∧ exits_released slice = ∅.

#[global] Instance keys_allocated_dec (slice : TorFlowSlice) : Decision (keys_allocated slice).
Proof. unfold keys_allocated. apply _. Defined.

Definition _torflowslice_computeMinProbes (key : string) (value : Z) (minProbes : Z) : Z :=
  let probes := GPOINTER_TO_UINT value in
  if minProbes <? probes then minProbes else probes.

Definition _torflowslice_getCandidates (table : gmap string Z) : list string :=
  let minProbes := g_hash_table_foreach table _torflowslice_computeMinProbes G_MAXUINT in
  foldl (λ candidates kv,
           let numProbes := GPOINTER_TO_UINT kv.2 in
           if numProbes =? minProbes then g_queue_push_tail candidates kv.1
           else candidates)
        [] (map_to_list table).

(** [rInt] is what [rand()] returns when the function calls it. *)
Definition _torflowslice_randomIndex (rInt : Z) (numElements : Z) : Z :=
  if numElements <=? 0 then 0
  else
    let rDouble := PrimFloat.div (CDouble.of_Z rInt) (CDouble.of_Z RAND_MAX) in
    let rIndex := PrimFloat.mul rDouble (CDouble.of_Z numElements) in
    let randomIndex := CDouble.floor_to_guint rIndex in
    if randomIndex >=? numElements then numElements - 1 else randomIndex.

Definition _torflowslice_countProbesRemaining (key : string) (value : Z)
    (slice : TorFlowSlice) : TorFlowSlice :=
  let numProbes := GPOINTER_TO_UINT value in
  let remaining :=
    if numProbes >=? numProbesPerRelay slice then 0
    else numProbesPerRelay slice - numProbes in
  set_totalProbesRemaining slice (guint_wrap (totalProbesRemaining slice + remaining)).

Definition torflowslice_new (sliceID : Z) (percentile : float) (numProbesPerRelay : Z)
  : TorFlowSlice :=
  mkSlice sliceID percentile numProbesPerRelay 0 None false ∅ ∅ ∅ ∅ ∅.

(** The three [g_hash_table_destroy] release every key of the tables. *)
Definition torflowslice_free (slice : TorFlowSlice) : Outcome () :=
  _ ← keys_touched (entries_released slice);
  _ ← keys_touched (exits_released slice);
  Returns ().

(** [relayID] is a new string ([g_strdup]); the table compares it with the
    key it holds for that identity, releases that key and stores the new
    one. *)
Definition torflowslice_addRelay (slice : TorFlowSlice) (relay : TorFlowRelay)
    (onlyMeasureExits : bool) : Outcome TorFlowSlice :=
  let relayID := torflowrelay_getIdentity relay in
  let numProbes := 0 in
  if torflowrelay_getIsAuth relay then
    Returns
      (set_auths slice (g_hash_table_replace (auths slice) relayID (GUINT_TO_POINTER numProbes)))
  else if torflowrelay_getIsExit relay then
    _ ← key_compared (exits_released slice) relayID;
    Returns
      (set_exits slice (g_hash_table_replace (exits slice) relayID (GUINT_TO_POINTER numProbes)))
  else if negb onlyMeasureExits then
    _ ← key_compared (entries_released slice) relayID;
    Returns
      (set_entries slice
         (g_hash_table_replace (entries slice) relayID (GUINT_TO_POINTER numProbes)))
  else Returns slice.

Definition torflowslice_getLength (slice : TorFlowSlice) : Z :=
  guint_wrap (g_hash_table_size (exits slice) + g_hash_table_size (entries slice)).

(** The answer and the slice, whose running total the call overwrites. The
    walk looks at the values only. *)
Definition torflowslice_getNumProbesRemaining (slice : TorFlowSlice) : Z * TorFlowSlice :=
  let slice0 := set_totalProbesRemaining slice 0 in
  let slice1 := g_hash_table_foreach (entries slice0) _torflowslice_countProbesRemaining slice0 in
  let slice2 := g_hash_table_foreach (exits slice1) _torflowslice_countProbesRemaining slice1 in
  (totalProbesRemaining slice2, slice2).

(** The merged table and the keys that were displaced on the way: [dest]
    owns its keys, so when [g_hash_table_replace] brings a key whose content
    [dest] already holds, [dest] releases the string it held. The keys that
    [dest] stores are the very strings of [one] and [two]. *)
Definition _torflowslice_mergeTables (dest one two : gmap string Z)
  : gmap string Z * gset string :=
  foldl (λ acc table,
           foldl (λ '(dest, displaced) kv,
                    (g_hash_table_replace dest kv.1 kv.2,
                     if decide (is_Some (dest !! kv.1)) then {[kv.1]} ∪ displaced
                     else displaced))
                 acc (map_to_list table))
        (dest, ∅) [one; two].

(** The locals that decide what a successful call hands back: the contents
    of the two strings and the flag. *)
Record RelayPair := mkPair {
  targetID : string;
  authID : string;
  measureEntry : bool
}.

(** The two out-parameters (lines 292-306). The target is a key of
    [targets], which line 289 has destroyed by then: the caller gets a
    pointer to a released string. The authority is a key of [auths]. *)
Definition entryRelayIdentity (pair : RelayPair) : gchar_ptr :=
  if measureEntry pair then Dangling (targetID pair) else Live (authID pair).
Definition exitRelayIdentity (pair : RelayPair) : gchar_ptr :=
  if measureEntry pair then Live (authID pair) else Dangling (targetID pair).

Record ChooseResult := mkChoose {
  chosen : option RelayPair;      (* [Some] for TRUE, [None] for FALSE *)
  slice_after : TorFlowSlice;
  logged : list LogLevel
}.

(** [randTarget] and [randAuth] are the values [rand()] returns in the draw
    among the targets and in the draw among the authorities. *)
Definition torflowslice_chooseRelayPair (randTarget randAuth : Z) (slice : TorFlowSlice)
  : Outcome ChooseResult :=
  let '(remaining, slice) := torflowslice_getNumProbesRemaining slice in
  if remaining <=? 0 then Returns (mkChoose None slice [])
  else
    (* line 217: the merge hands every key of the two tables to [targets],
       which hashes it; a key of [entries] whose content comes again from
       [exits] is released by [targets] while [entries] still holds it *)
    _ ← keys_touched (entries_released slice);
    _ ← keys_touched (exits_released slice);
    let '(targets, displaced) := _torflowslice_mergeTables ∅ (entries slice) (exits slice) in
    let slice := set_released slice displaced (exits_released slice) in
    let candidateTargets := _torflowslice_getCandidates targets in
    let candidateAuths := _torflowslice_getCandidates (auths slice) in
    let targetPosition :=
      _torflowslice_randomIndex randTarget (g_queue_get_length candidateTargets) in
    let authPosition :=
      _torflowslice_randomIndex randAuth (g_queue_get_length candidateAuths) in
    match g_queue_peek_nth candidateTargets targetPosition,
          g_queue_peek_nth candidateAuths authPosition with
    | Some targetID, Some authID =>
        (* lines 240-266: the two tables are asked about [targetID] *)
        _ ← key_compared (entries_released slice) targetID;
        _ ← key_compared (exits_released slice) targetID;
        let entryProbeCount := g_hash_table_lookup (entries slice) targetID in
        let exitProbeCount := g_hash_table_lookup (exits slice) targetID in
        (* [entryProbeCount == NULL && authID == NULL] cannot hold here *)
        let measureEntry := negb (entryProbeCount =? NULL) in
        let slice :=
          if measureEntry then set_entries slice (g_hash_table_steal (entries slice) targetID)
          else set_exits slice (g_hash_table_steal (exits slice) targetID) in
        let newTargetCount :=
          if measureEntry then GPOINTER_TO_UINT entryProbeCount
          else GPOINTER_TO_UINT exitProbeCount in
        let newTargetCount := guint_wrap (newTargetCount + 1) in
        let slice :=
          if measureEntry then
            set_entries slice
              (g_hash_table_replace (entries slice) targetID (GUINT_TO_POINTER newTargetCount))
          else
            set_exits slice
              (g_hash_table_replace (exits slice) targetID (GUINT_TO_POINTER newTargetCount)) in
        (* line 289: [targets] releases every key it holds, which are the
           strings that [entries] and [exits] hold, [targetID] among them *)
        let slice := set_released slice (dom (entries slice)) (dom (exits slice)) in
        Returns (mkChoose (Some (mkPair targetID authID measureEntry)) slice [LOG_INFO])
    | _, _ =>
        (* lines 230-237: [targets] is not destroyed *)
        Returns (mkChoose None slice [LOG_ERROR])
    end.

Definition _torflowslice_FindRelayID (key : string) (value : Z) (slice : TorFlowSlice)
  : TorFlowSlice :=
  match relayIDSearch slice with
  | Some search =>
      if g_ascii_strcasecmp key search =? 0 then set_relayIDFound slice true else slice
  | None => slice
  end.

(** The flag says whether the call walked the partitions. *)
Record ContainsResult := mkContains {
  answer : bool;
  slice_then : TorFlowSlice;
  scanned : bool
}.

(** A walk with [_torflowslice_FindRelayID] reads every key of the table. *)
Definition torflowslice_contains (slice : TorFlowSlice) (relayID : option string)
  : Outcome ContainsResult :=
  match relayID with
  | None => Returns (mkContains false slice false)
  | Some relayID =>
      let search slice :=
        let slice := set_cache slice (Some relayID) false in
        _ ← keys_touched (entries_released slice);
        let slice := g_hash_table_foreach (entries slice) _torflowslice_FindRelayID slice in
        if negb (relayIDFound slice) then
          _ ← keys_touched (exits_released slice);
          let slice := g_hash_table_foreach (exits slice) _torflowslice_FindRelayID slice in
          Returns (mkContains (relayIDFound slice) slice true)
        else Returns (mkContains (relayIDFound slice) slice true) in
      match relayIDSearch slice with
      | Some cached =>
          if g_ascii_strcasecmp relayID cached =? 0 then
            Returns (mkContains (relayIDFound slice) slice false)
          else search (set_cache slice None false)
      | None => search slice
      end
  end.

(** The band of the payload table the percentile falls in (the table that
    is compiled when SMALLFILES is not defined). The bounds are the doubles
    nearest to the decimal literals, as the C compiler reads them. *)
#[local] Set Warnings "-inexact-float".
Definition torflowslice_getTransferSize (slice : TorFlowSlice) : Z :=
  if PrimFloat.ltb (percentile slice) 0.01 then 1024 * 1024 * 1024
  else if PrimFloat.ltb (percentile slice) 0.07 then 2 * 1024 * 1024
  else if PrimFloat.ltb (percentile slice) 0.23 then 1024 * 1024
  else if PrimFloat.ltb (percentile slice) 0.53 then 512 * 1024
  else if PrimFloat.ltb (percentile slice) 0.82 then 256 * 1024
  else if PrimFloat.ltb (percentile slice) 0.95 then 128 * 1024
  else if PrimFloat.ltb (percentile slice) 0.99 then 64 * 1024
  else 32 * 1024.

(** The slice after the call and the line it logs at info level. *)
Definition torflowslice_logStatus (slice : TorFlowSlice) : TorFlowSlice * list (LogLevel * string) :=
  let numEntries := g_hash_table_size (entries slice) in
  let numExits := g_hash_table_size (exits slice) in
  let '(remaining, slice) := torflowslice_getNumProbesRemaining slice in
  (slice,
   [(LOG_INFO,
     "slice " +:+ pretty (sliceID slice) +:+ ": we have " +:+ pretty (guint_wrap numEntries)
       +:+ " entries and " +:+ pretty (guint_wrap numExits) +:+ " exits, and "
       +:+ pretty remaining +:+ " probes remaining")]).

End Slice.

(** ** torflow-aggregator.c *)

Module Aggregator.
Import GLib.

Record TorFlowRelayStats := mkStats {
  nickname : string;
  identity : string;
  descriptorBandwidth : Z;
  advertisedBandwidth : Z;
  newBandwidth : Z;
  meanBandwidth : Z;
  filteredBandwidth : Z
}.

Definition set_newBandwidth (current : TorFlowRelayStats) (bw : Z) : TorFlowRelayStats :=
  mkStats (nickname current) (identity current) (descriptorBandwidth current)
    (advertisedBandwidth current) bw (meanBandwidth current) (filteredBandwidth current).

(** The last field is no field of the C struct: it is the set of keys of
    [relayStats] whose string has been released while the table still
    points to it. The table does not own its keys (line 177): the key of a
    record is the identity string of the record itself (lines 128, 148). *)
Record TorFlowAggregator := mkAggregator {
  numWorkers : Z;
  gotInitial : bool;
  filename : string;
  relayStats : gmap string TorFlowRelayStats;
  nodeCap : float;
  version : Z;
  relayStats_released : gset string
}.

Definition set_relayStats (tfa : TorFlowAggregator) (table : gmap string TorFlowRelayStats)
  : TorFlowAggregator :=
  mkAggregator (numWorkers tfa) (gotInitial tfa) (filename tfa) table (nodeCap tfa) (version tfa)
    (relayStats_released tfa).

Definition set_version (tfa : TorFlowAggregator) (v : Z) : TorFlowAggregator :=
  mkAggregator (numWorkers tfa) (gotInitial tfa) (filename tfa) (relayStats tfa) (nodeCap tfa) v
    (relayStats_released tfa).

Definition set_gotInitial (tfa : TorFlowAggregator) (b : bool) : TorFlowAggregator :=
  mkAggregator (numWorkers tfa) b (filename tfa) (relayStats tfa) (nodeCap tfa) (version tfa)
    (relayStats_released tfa).

Definition set_relayStats_released (tfa : TorFlowAggregator) (released : gset string)
  : TorFlowAggregator :=
  mkAggregator (numWorkers tfa) (gotInitial tfa) (filename tfa) (relayStats tfa) (nodeCap tfa)
    (version tfa) released.

(** The value destructor of the table releases the two strings of the
    record and the record. Its identity string is the key the table holds
    for the record: that key joins the released ones. *)
Definition _torflowaggregator_torFlowRelayStatsFree (key : string) (toFree : TorFlowRelayStats)
    (released : gset string) : gset string :=
  {[key]} ∪ released.

(** [g_hash_table_insert(tfa->relayStats, tfrs->identity->str, tfrs)], lines
    128 and 148: the table compares the new key with the one it holds for
    that identity; where it holds one, it keeps it, stores the new record
    and destroys the old one. *)
Definition fileStats (tfa : TorFlowAggregator) (tfrs : TorFlowRelayStats)
  : Outcome TorFlowAggregator :=
  let key := identity tfrs in
  _ ← key_compared (relayStats_released tfa) key;
  let '(table, replaced) := g_hash_table_insert (relayStats tfa) key tfrs in
  let released :=
    match replaced with
    | Some toFree =>
        _torflowaggregator_torFlowRelayStatsFree key toFree (relayStats_released tfa)
    | None => relayStats_released tfa
    end in
  Returns (set_relayStats_released (set_relayStats tfa table) released).

(** What a publish does to the outside, in program order. *)
Inductive Event :=
| Slogf (level : LogLevel) (message : string)
| Fopen (path : string)
| Fprintf (text : string)
| Fclose
| Unlink (path : string)
| Symlink (target linkpath : string).

#[global] Instance Event_eq_dec : EqDecision Event.
Proof. solve_decision. Defined.

Definition newline : string := String (ascii_of_nat 10) EmptyString.

(** First loop of the publish: the two totals, summed in [gint]. *)
Definition sumBandwidths (table : gmap string TorFlowRelayStats) : Z * Z :=
  foldl (λ '(totalMeanBW, totalFiltBW) kv,
           (gint_wrap (totalMeanBW + meanBandwidth kv.2),
            gint_wrap (totalFiltBW + filteredBandwidth kv.2)))
        (0, 0) (map_to_list table).

(** The assignment of the second loop. *)
Definition computeNewBandwidth (avgMeanBW avgFiltBW : float) (current : TorFlowRelayStats) : Z :=
  CDouble.to_gint
    (PrimFloat.mul (CDouble.of_Z (advertisedBandwidth current))
       (CDouble.fmax
          (PrimFloat.div (CDouble.of_Z (meanBandwidth current)) avgMeanBW)
          (PrimFloat.div (CDouble.of_Z (filteredBandwidth current)) avgFiltBW))).

(** Second loop: every record gets its new bandwidth, written in place, and
    the new bandwidths are totalled. *)
Definition assignNewBandwidths (avgMeanBW avgFiltBW : float)
    (table : gmap string TorFlowRelayStats) : gmap string TorFlowRelayStats * Z :=
  foldl (λ '(stats, totalBW) kv,
           let bw := computeNewBandwidth avgMeanBW avgFiltBW kv.2 in
           (<[kv.1 := set_newBandwidth kv.2 bw]> stats, gint_wrap (totalBW + bw)))
        (table, 0) (map_to_list table).

(** The table and the total as they stand after the first two loops, before
    any capping. *)
Definition redistribute (table : gmap string TorFlowRelayStats)
  : gmap string TorFlowRelayStats * Z :=
  let '(totalMeanBW, totalFiltBW) := sumBandwidths table in
  let avgMeanBW := PrimFloat.div (CDouble.of_Z totalMeanBW) (CDouble.of_Z (g_hash_table_size table)) in
  let avgFiltBW := PrimFloat.div (CDouble.of_Z totalFiltBW) (CDouble.of_Z (g_hash_table_size table)) in
  assignNewBandwidths avgMeanBW avgFiltBW table.

(** Third loop: cap, log the capping, print the line. *)
Definition capAndPrint (cap : Z) (table : gmap string TorFlowRelayStats)
  : gmap string TorFlowRelayStats * list Event :=
  foldl (λ '(stats, events) kv,
           let current := kv.2 in
           let capped := cap <? newBandwidth current in
           let current := if capped then set_newBandwidth current cap else current in
           let line :=
             "node_id=$" +:+ identity current +:+ " bw=" +:+ pretty (newBandwidth current)
               +:+ " nick=" +:+ nickname current +:+ newline in
           (<[kv.1 := current]> stats,
            events
              ++ (if capped then
                    [Slogf LOG_MESSAGE
                       ("Capping bandwidth for extremely fast relay " +:+ nickname current +:+ newline)]
                  else [])
              ++ [Fprintf line]))
        (table, []) (map_to_list table).

(** [now_sec] is the second count of the clock; [unlink_ret] and
    [symlink_ret] are what the two system calls return: 0 when they
    succeed, -1 when they fail. *)
Definition _torflowaggregator_printToFile (now_sec unlink_ret symlink_ret : Z)
    (tfa : TorFlowAggregator) : TorFlowAggregator * list Event :=
  let '(stats, totalBW) := redistribute (relayStats tfa) in
  let newFilename := filename tfa +:+ "." +:+ pretty (version tfa) in
  let tfa := set_version tfa (gint_wrap (version tfa + 1)) in
  let cap := CDouble.to_gint (PrimFloat.mul (CDouble.of_Z totalBW) (nodeCap tfa)) in
  let '(stats, printed) := capAndPrint cap stats in
  let events :=
    [Fopen newFilename; Fprintf (pretty now_sec +:+ newline)] ++ printed ++ [Fclose]
    ++ [Unlink (filename tfa)]
    ++ (if unlink_ret =? 0 then
          [Slogf LOG_WARNING ("Unable to remove symlink to " +:+ filename tfa +:+ "!" +:+ newline)]
        else [])
    ++ [Symlink newFilename (filename tfa)]
    ++ (if symlink_ret =? 0 then
          [Slogf LOG_WARNING
             ("Unable to create symlink from " +:+ newFilename +:+ " to " +:+ filename tfa
                +:+ "!" +:+ newline)]
        else []) in
  (set_relayStats tfa stats, events).

Definition initialStats (current : TorFlowRelay) : TorFlowRelayStats :=
  mkStats (relay_nickname current) (relay_identity current)
    (relay_descriptorBandwidth current) (relay_advertisedBandwidth current)
    0 (relay_descriptorBandwidth current) (relay_descriptorBandwidth current).

Definition torflowaggregator_reportInitial (tfa : TorFlowAggregator) (relays : list TorFlowRelay)
  : Outcome TorFlowAggregator :=
  if gotInitial tfa then Returns tfa
  else
    let tfa := set_gotInitial tfa true in
    for_each (λ tfa current,
                let tfrs := initialStats current in
                fileStats tfa tfrs)
             tfa relays.

Section Measurements.

(** The statistics helpers and the sample threshold live in files that are
    not part of the sources; they are taken as given. *)
Variable torflowutil_meanBandwidth : TorFlowRelay → Z.
Variable torflowutil_filteredBandwidth : TorFlowRelay → Z → Z.
Variable MEASUREMENTS_PER_SLICE : Z.

Definition measuredStats (current : TorFlowRelay) : TorFlowRelayStats :=
  let mean := torflowutil_meanBandwidth current in
  mkStats (relay_nickname current) (relay_identity current)
    (relay_descriptorBandwidth current) (relay_advertisedBandwidth current)
    0 mean (torflowutil_filteredBandwidth current mean).

Definition torflowaggregator_reportMeasurements (now_sec unlink_ret symlink_ret : Z)
    (tfa : TorFlowAggregator) (measuredRelays : list TorFlowRelay) (sliceSize currSlice : Z)
  : Outcome (TorFlowAggregator * list Event) :=
  let start := guint_wrap (gint_wrap (sliceSize * currSlice)) in
  let window := take (Z.to_nat sliceSize) (drop (Z.to_nat start) measuredRelays) in
  tfa ← for_each (λ tfa current,
                    if relay_measureCount current >=? MEASUREMENTS_PER_SLICE then
                      let tfrs := measuredStats current in
                      fileStats tfa tfrs
                    else Returns tfa)
                 tfa window;
  Returns (_torflowaggregator_printToFile now_sec unlink_ret symlink_ret tfa).

End Measurements.

Definition torflowaggregator_new (filename : string) (numWorkers : Z) (nodeCap : float)
  : TorFlowAggregator :=
  mkAggregator numWorkers false filename ∅ nodeCap 0 ∅.

End Aggregator.

(** ** Vocabulary of the statements *)

Module Spec.
Import GLib Slice.

Definition Zsum (l : list Z) : Z := foldr Z.add 0 l.

(** The probes a partition still owes: max(0, target - count), summed over
    its relays. *)
Definition unmetProbes (target : Z) (table : gmap string Z) : Z :=
  Zsum ((λ kv, Z.max 0 (target - kv.2)) <$> map_to_list table).

(** The merged view of entries and exits that the selection works on. *)
Definition targets (slice : TorFlowSlice) : gmap string Z :=
  (_torflowslice_mergeTables ∅ (entries slice) (exits slice)).1.

(** The smallest count the candidate search finds in a table. *)
Definition minProbes (table : gmap string Z) : Z :=
  g_hash_table_foreach table _torflowslice_computeMinProbes G_MAXUINT.

End Spec.

(** ** Slices the statements are tried on *)

Module Examples.
Import GLib Slice.

Definition relay (id : string) (isAuth isExit : bool) : TorFlowRelay :=
  mkRelay id id isAuth isExit 0 0 0.

(** One entry relay, one authority, one probe wanted per relay. *)
Definition fresh_slice : Outcome TorFlowSlice :=
  slice ← torflowslice_addRelay (torflowslice_new 0 0%float 1) (relay "a" false false) false;
  torflowslice_addRelay slice (relay "x" true false) false.

(** One entry relay and no authority. *)
Definition slice_without_authority : Outcome TorFlowSlice :=
  torflowslice_addRelay (torflowslice_new 0 0%float 1) (relay "a" false false) false.

(** One entry and one exit, 2^31 probes wanted per relay. *)
Definition greedy_slice : Outcome TorFlowSlice :=
  slice ← torflowslice_addRelay (torflowslice_new 0 0%float 2147483648)
            (relay "a" false false) false;
  torflowslice_addRelay slice (relay "b" false true) false.

End Examples.

Module ContainsSpec.
Import GLib Slice.

(** Some key of the table equals the identity up to ASCII case. *)
Definition holds_caseless (table : gmap string Z) (id : string) : Prop :=
  ∃ k, is_Some (table !! k) ∧ ascii_caseless_eq k id.

(** What a walk of [_torflowslice_FindRelayID] over the table finds. *)
Definition matches (table : gmap string Z) (id : string) : bool :=
  existsb (λ kv : string * Z, g_ascii_strcasecmp kv.1 id =? 0) (map_to_list table).

(** The one-slot cache holds the identity, up to case. *)
Definition cache_hit (slice : TorFlowSlice) (id : string) : Prop :=
  ∃ cached, relayIDSearch slice = Some cached ∧ g_ascii_strcasecmp id cached = 0.

(** A slice built from scratch: [torflowslice_new], then one
    [torflowslice_addRelay] per relay of the list, each with its flag. *)
Definition build (sliceID : Z) (percentile : float) (numProbesPerRelay : Z)
    (relays : list (TorFlowRelay * bool)) : Outcome TorFlowSlice :=
  for_each (λ slice rb, torflowslice_addRelay slice rb.1 rb.2)
           (torflowslice_new sliceID percentile numProbesPerRelay) relays.

(** A query for "A" on an empty slice, then relay "A" is added as an entry:
    the cache still says that "A" is not there. *)
Definition stale_slice : Outcome TorFlowSlice :=
  first ← torflowslice_contains (torflowslice_new 0 0%float 1) (Some "A");
  torflowslice_addRelay (slice_then first) (Examples.relay "A" false false) false.

#[global] Instance cache_hit_dec (slice : TorFlowSlice) (id : string) :
  Decision (cache_hit slice id).
Proof.
  unfold cache_hit. destruct (relayIDSearch slice) as [cached|].
  - destruct (decide (g_ascii_strcasecmp id cached = 0)) as [H|H].
    + left. by exists cached.
    + right. intros (c & [= <-] & Hc). done.
  - right. by intros (c & [=] & _).
Defined.

End ContainsSpec.

Module PublishSpec.
Import GLib Aggregator Spec.

(** The sum of one field over all records of the stats table. *)
Definition totalOf (field : TorFlowRelayStats → Z) (table : gmap string TorFlowRelayStats) : Z :=
  Zsum ((λ kv, field kv.2) <$> map_to_list table).

(** The warning-level messages among the events, in order. *)
Definition warnings (events : list Event) : list string :=
  omap (λ e, match e with Slogf LOG_WARNING message => Some message | _ => None end) events.

(** The files opened among the events, in order. *)
Definition opened (events : list Event) : list string :=
  omap (λ e, match e with Fopen path => Some path | _ => None end) events.

(** The calls to [unlink] and [symlink] among the events, in order. *)
Definition attempts (events : list Event) : list Event :=
  omap (λ e, match e with Unlink _ | Symlink _ _ => Some e | _ => None end) events.

(** One publish per triple (clock, answer of unlink, answer of symlink). *)
Definition publishes (answers : list (Z * Z * Z)) (tfa : TorFlowAggregator) : TorFlowAggregator :=
  foldl (λ tfa a, (_torflowaggregator_printToFile a.1.1 a.1.2 a.2 tfa).1) tfa answers.

Definition measured (id : string) (descriptor advertised : Z) : TorFlowRelay :=
  mkRelay id id false false descriptor advertised 0.


(** The same three relays, each advertising 200. *)
Definition seeded_evenly : Outcome TorFlowAggregator :=
  torflowaggregator_reportInitial (torflowaggregator_new "v3bw" 1 1%float)
    [measured "A" 100 200; measured "B" 200 200; measured "C" 300 200].


(** The files the events leave behind, each with its lines: [Fopen] starts
    a file, [Fprintf] adds a line to the file that is open, [Fclose] ends
    it. *)
Fixpoint written_from (current : option (string * list string)) (events : list Event)
  : list (string * list string) :=
  match events with
  | [] => []
  | Fopen path :: events => written_from (Some (path, [])) events
  | Fprintf text :: events =>
      written_from (prod_map id (λ lines, lines ++ [text]) <$> current) events
  | Fclose :: events =>
      match current with
      | Some file => file :: written_from None events
      | None => written_from None events
      end
  | _ :: events => written_from current events
  end.

Definition written (events : list Event) : list (string * list string) :=
  written_from None events.

(** The line of the report for a record. *)
Definition reportLine (current : TorFlowRelayStats) : string :=
  "node_id=$" +:+ identity current +:+ " bw=" +:+ pretty (newBandwidth current)
    +:+ " nick=" +:+ nickname current +:+ newline.

End PublishSpec.

(** ** Vocabulary of the further statements *)

Module Runs.
Import GLib Slice Aggregator Spec ContainsSpec PublishSpec.

(** The slices a program can build: it starts from [torflowslice_new] with
    a [guint] probe target and goes on with the functions of the file, as
    long as their behaviour is defined. *)
Inductive reachable : TorFlowSlice → Prop :=
| reach_new (sliceID : Z) (percentile : float) (numProbes : Z) :
    is_guint numProbes → reachable (torflowslice_new sliceID percentile numProbes)
| reach_addRelay (slice after : TorFlowSlice) (relay : TorFlowRelay) (onlyMeasureExits : bool) :
    reachable slice →
    torflowslice_addRelay slice relay onlyMeasureExits = Returns after →
    reachable after
| reach_getNumProbesRemaining (slice : TorFlowSlice) :
    reachable slice → reachable (torflowslice_getNumProbesRemaining slice).2
| reach_chooseRelayPair (randTarget randAuth : Z) (slice : TorFlowSlice) (result : ChooseResult) :
    reachable slice →
    torflowslice_chooseRelayPair randTarget randAuth slice = Returns result →
    reachable (slice_after result)
| reach_logStatus (slice : TorFlowSlice) :
    reachable slice → reachable (torflowslice_logStatus slice).1
| reach_contains (slice : TorFlowSlice) (relayID : option string) (result : ContainsResult) :
    reachable slice →
    torflowslice_contains slice relayID = Returns result →
    reachable (slice_then result).

(** Two exits, one authority, two probes wanted per relay, built with
    only the exits measured. *)
Definition exits_slice : Outcome TorFlowSlice :=
  slice ← torflowslice_addRelay (torflowslice_new 0 0%float 2) (Examples.relay "e" false true) true;
  slice ← torflowslice_addRelay slice (Examples.relay "f" false true) true;
  torflowslice_addRelay slice (Examples.relay "x" true false) true.

(** Every counter of the table is 0. *)
Definition all_unprobed (table : gmap string Z) : Prop :=
  map_Forall (λ _ v, v = 0) table.

(** The one-slot cache, when filled, says what a walk of the partitions
    would say. *)
Definition cache_coherent (slice : TorFlowSlice) : Prop :=
  ∀ cached, relayIDSearch slice = Some cached →
    relayIDFound slice = matches (entries slice) cached || matches (exits slice) cached.

(** The sizes of the payload table. *)
Definition transferSizes : list Z :=
  [1024 * 1024 * 1024; 2 * 1024 * 1024; 1024 * 1024; 512 * 1024; 256 * 1024; 128 * 1024;
   64 * 1024; 32 * 1024].

(** The fields of a stats record that a publish does not compute. *)
Definition measuredFields (current : TorFlowRelayStats) : string * string * Z * Z * Z * Z :=
  (nickname current, identity current, descriptorBandwidth current,
   advertisedBandwidth current, meanBandwidth current, filteredBandwidth current).

(** The text printed into the file, in order. *)
Definition printed (events : list Event) : list string :=
  omap (λ e, match e with Fprintf text => Some text | _ => None end) events.

(** The message-level log lines among the events, in order. *)
Definition messages (events : list Event) : list string :=
  omap (λ e, match e with Slogf LOG_MESSAGE message => Some message | _ => None end) events.

(** A record after the third loop of the publish: clamped to the cap when
    its new bandwidth is above it. *)
Definition capped (cap : Z) (current : TorFlowRelayStats) : TorFlowRelayStats :=
  if cap <? newBandwidth current then set_newBandwidth current cap else current.

(** The relays of the window of a measurement report that have enough
    samples. *)
Definition qualifying (threshold : Z) (measuredRelays : list TorFlowRelay)
    (sliceSize currSlice : Z) : list TorFlowRelay :=
  filter (λ current, threshold <= relay_measureCount current)
    (take (Z.to_nat sliceSize)
       (drop (Z.to_nat (guint_wrap (gint_wrap (sliceSize * currSlice)))) measuredRelays)).

End Runs.

(** * Properties *)

Import GLib Slice Spec.

(** ** Integers *)

Lemma guint_wrap_range z : is_guint (guint_wrap z).
Proof. unfold is_guint, guint_wrap, G_MAXUINT. pose proof (Z.mod_pos_bound z 4294967296). lia. Qed.

Lemma guint_wrap_small z : is_guint z → guint_wrap z = z.
Proof. unfold is_guint, guint_wrap, G_MAXUINT. intros. apply Z.mod_small. lia. Qed.

Lemma guint_wrap_add_l a b : guint_wrap (guint_wrap a + b) = guint_wrap (a + b).
Proof. unfold guint_wrap. apply Zplus_mod_idemp_l. Qed.

(** ** Walks over a table *)

Lemma wrapped_sum (g : string * Z → Z) (l : list (string * Z)) (t : Z) :
  guint_wrap (foldl (λ t kv, guint_wrap (t + g kv)) t l) = guint_wrap (t + Zsum (g <$> l)).
Proof.
  unfold Zsum. revert t. induction l as [|kv l IH]; intros t; simpl.
  - by rewrite Z.add_0_r.
  - rewrite IH, guint_wrap_add_l. f_equal. symmetry. apply Z.add_assoc.
Qed.

Lemma wrapped_sum_guint (g : string * Z → Z) (l : list (string * Z)) (t : Z) :
  is_guint t → is_guint (foldl (λ t kv, guint_wrap (t + g kv)) t l).
Proof.
  revert t. induction l as [|kv l IH]; intros t Ht; simpl; [done|].
  apply IH, guint_wrap_range.
Qed.

Lemma countProbesRemaining_walk (l : list (string * Z)) (slice : TorFlowSlice) :
  foldl (λ acc kv, _torflowslice_countProbesRemaining kv.1 kv.2 acc) slice l
  = set_totalProbesRemaining slice
      (foldl (λ t kv, guint_wrap (t + Z.max 0 (numProbesPerRelay slice - kv.2)))
         (totalProbesRemaining slice) l).
Proof.
  revert slice. induction l as [|[k v] l IH]; intros slice; simpl.
  - by destruct slice.
  - rewrite IH. unfold _torflowslice_countProbesRemaining, GPOINTER_TO_UINT; simpl.
    unfold set_totalProbesRemaining; simpl.
    replace (if v >=? numProbesPerRelay slice then 0 else numProbesPerRelay slice - v)
      with (Z.max 0 (numProbesPerRelay slice - v)); [done|].
    destruct (Z.geb_spec v (numProbesPerRelay slice)); lia.
Qed.

Lemma getNumProbesRemaining_eq (slice : TorFlowSlice) :
  let total := guint_wrap (unmetProbes (numProbesPerRelay slice) (entries slice)
                           + unmetProbes (numProbesPerRelay slice) (exits slice)) in
  torflowslice_getNumProbesRemaining slice = (total, set_totalProbesRemaining slice total).
Proof.
  unfold torflowslice_getNumProbesRemaining, g_hash_table_foreach.
  rewrite !countProbesRemaining_walk. simpl.
  set (n := numProbesPerRelay slice).
  set (g := λ kv : string * Z, Z.max 0 (n - kv.2)).
  assert (foldl (λ t kv, guint_wrap (t + Z.max 0 (n - kv.2)))
            (foldl (λ t kv, guint_wrap (t + Z.max 0 (n - kv.2))) 0 (map_to_list (entries slice)))
            (map_to_list (exits slice))
          = guint_wrap (unmetProbes n (entries slice) + unmetProbes n (exits slice))) as ->; [|done].
  rewrite <- (guint_wrap_small (foldl _ (foldl _ _ _) _)).
  - rewrite (wrapped_sum g), <- guint_wrap_add_l, (wrapped_sum g), guint_wrap_add_l. done.
  - apply (wrapped_sum_guint g), (wrapped_sum_guint g). unfold is_guint, G_MAXUINT; lia.
Qed.

(** ** The candidate search *)

Lemma computeMinProbes_walk (l : list (string * Z)) (acc : Z) :
  let m := foldl (λ acc kv, _torflowslice_computeMinProbes kv.1 kv.2 acc) acc l in
  m <= acc ∧ (∀ kv, kv ∈ l → m <= kv.2) ∧ (m = acc ∨ ∃ kv, kv ∈ l ∧ kv.2 = m).
Proof.
  revert acc. induction l as [|[k v] l IH]; intros acc; simpl.
  - split; [lia|]. split; [|by left]. intros kv H. by apply elem_of_nil in H.
  - destruct (IH (_torflowslice_computeMinProbes k v acc)) as (Hle & Hall & Hat).
    assert (_torflowslice_computeMinProbes k v acc <= acc
            ∧ _torflowslice_computeMinProbes k v acc <= v
            ∧ (_torflowslice_computeMinProbes k v acc = acc
               ∨ _torflowslice_computeMinProbes k v acc = v)) as (H1 & H2 & H3).
    { unfold _torflowslice_computeMinProbes, GPOINTER_TO_UINT.
      destruct (Z.ltb_spec acc v); lia. }
    split; [lia|]. split.
    + intros kv [->|Hin]%elem_of_cons; simpl; [lia|]. by apply Hall.
    + destruct Hat as [Hat|(kv & Hin & Hkv)].
      * destruct H3 as [H3|H3].
        -- left. lia.
        -- right. exists (k, v). split; [apply elem_of_cons; by left|]. simpl. lia.
      * right. exists kv. split; [apply elem_of_cons; by right|done].
Qed.

Lemma minProbes_le (table : gmap string Z) (k : string) (v : Z) :
  table !! k = Some v → minProbes table <= v.
Proof.
  intros Hk. unfold minProbes, g_hash_table_foreach.
  destruct (computeMinProbes_walk (map_to_list table) G_MAXUINT) as (_ & Hall & _).
  apply (Hall (k, v)). by apply elem_of_map_to_list.
Qed.

Lemma minProbes_attained (table : gmap string Z) :
  table ≠ ∅ → map_Forall (λ _ v, is_guint v) table →
  ∃ k, table !! k = Some (minProbes table).
Proof.
  intros Hne Hwf. unfold minProbes, g_hash_table_foreach.
  destruct (computeMinProbes_walk (map_to_list table) G_MAXUINT) as (Hle & Hall & Hat).
  simpl in *. destruct Hat as [Hat|([k v] & Hin & Hkv)].
  - apply map_choose in Hne as (k & v & Hk). exists k. rewrite Hat.
    assert (v = G_MAXUINT) as <-; [|done].
    pose proof (Hwf k v Hk) as Hv. simpl in Hv. unfold is_guint in Hv.
    pose proof (Hall (k, v)) as Hm. simpl in Hm. rewrite Hat in Hm.
    assert (G_MAXUINT <= v); [|lia]. apply Hm. by apply elem_of_map_to_list.
  - exists k. apply elem_of_map_to_list in Hin. simpl in Hkv. by rewrite <- Hkv.
Qed.

Lemma push_tail_walk (P : string * Z → bool) (l : list (string * Z)) (queue : list string) :
  foldl (λ candidates kv, if P kv then g_queue_push_tail candidates kv.1 else candidates) queue l
  = queue ++ (filter (λ kv, P kv = true) l).*1.
Proof.
  revert queue. induction l as [|kv l IH]; intros queue; simpl.
  - by rewrite app_nil_r.
  - rewrite IH. rewrite filter_cons. destruct (P kv) eqn:HP.
    + rewrite decide_True by done. unfold g_queue_push_tail. by rewrite <- app_assoc.
    + rewrite decide_False by done. done.
Qed.

Lemma getCandidates_elem (table : gmap string Z) (k : string) :
  k ∈ _torflowslice_getCandidates table ↔ table !! k = Some (minProbes table).
Proof.
  unfold _torflowslice_getCandidates. fold (minProbes table).
  rewrite (push_tail_walk (λ kv, GPOINTER_TO_UINT kv.2 =? minProbes table)). simpl.
  rewrite list_elem_of_fmap. split.
  - intros ([k' v] & -> & Hin). apply list_elem_of_filter in Hin as [Hv Hin].
    apply elem_of_map_to_list in Hin. simpl in *. unfold GPOINTER_TO_UINT in Hv.
    apply Z.eqb_eq in Hv. by rewrite <- Hv.
  - intros Hk. exists (k, minProbes table). split; [done|].
    apply list_elem_of_filter. split.
    + simpl. unfold GPOINTER_TO_UINT. apply Z.eqb_refl.
    + by apply elem_of_map_to_list.
Qed.

Lemma getCandidates_nonempty (table : gmap string Z) :
  table ≠ ∅ → map_Forall (λ _ v, is_guint v) table →
  _torflowslice_getCandidates table ≠ [].
Proof.
  intros Hne Hwf. destruct (minProbes_attained table Hne Hwf) as (k & Hk).
  apply getCandidates_elem in Hk. intros Heq. rewrite Heq in Hk. by apply elem_of_nil in Hk.
Qed.

Lemma getCandidates_empty : _torflowslice_getCandidates ∅ = [].
Proof.
  unfold _torflowslice_getCandidates, g_hash_table_foreach. by rewrite map_to_list_empty.
Qed.

(** ** The random draw *)

Lemma randomIndex_range (rInt numElements : Z) :
  0 < numElements → 0 <= _torflowslice_randomIndex rInt numElements < numElements.
Proof.
  intros Hn. unfold _torflowslice_randomIndex.
  destruct (Z.leb_spec numElements 0); [lia|].
  set (idx := CDouble.floor_to_guint _).
  assert (0 <= idx) as Hidx.
  { unfold idx, CDouble.floor_to_guint. destruct (CDouble.Zfloor _); [|lia].
    apply guint_wrap_range. }
  destruct (Z.geb_spec idx numElements); lia.
Qed.

Lemma peek_random (queue : list string) (rInt : Z) :
  queue ≠ [] →
  ∃ id, g_queue_peek_nth queue (_torflowslice_randomIndex rInt (g_queue_get_length queue)) = Some id
        ∧ id ∈ queue.
Proof.
  intros Hne. unfold g_queue_peek_nth, g_queue_get_length.
  assert (0 < Z.of_nat (length queue)) as Hlen by (destruct queue; [done|simpl; lia]).
  pose proof (randomIndex_range rInt _ Hlen) as Hr.
  destruct (Z.ltb_spec (_torflowslice_randomIndex rInt (Z.of_nat (length queue))) 0); [lia|].
  destruct (lookup_lt_is_Some_2 queue
              (Z.to_nat (_torflowslice_randomIndex rInt (Z.of_nat (length queue))))) as [id Hid];
    [lia|].
  exists id. split; [done|]. by eapply list_elem_of_lookup_2.
Qed.


(** ** The merged view *)

Lemma replace_walk_lookup (l : list (string * Z)) (dest : gmap string Z) (k : string) :
  NoDup l.*1 →
  foldl (λ dest kv, g_hash_table_replace dest kv.1 kv.2) dest l !! k
  = match (list_to_map l : gmap string Z) !! k with
    | Some v => Some v
    | None => dest !! k
    end.
Proof.
  revert dest. induction l as [|[k' v'] l IH]; intros dest Hnd; simpl.
  - by rewrite lookup_empty.
  - apply NoDup_cons in Hnd as [Hnotin Hnd]. rewrite IH by done.
    unfold g_hash_table_replace. simpl.
    destruct (decide (k' = k)) as [->|Hne].
    + rewrite lookup_insert_eq.
      rewrite (not_elem_of_list_to_map_1 l k) by done. by rewrite lookup_insert_eq.
    + rewrite !lookup_insert_ne by done. done.
Qed.

Lemma replace_walk_dom (l : list (string * Z)) (dest : gmap string Z) :
  dom (foldl (λ dest kv, g_hash_table_replace dest kv.1 kv.2) dest l)
  = list_to_set l.*1 ∪ dom dest.
Proof.
  revert dest. induction l as [|[k v] l IH]; intros dest; simpl.
  - by rewrite (left_id_L ∅ (∪)).
  - rewrite IH. unfold g_hash_table_replace. simpl. rewrite dom_insert_L.
    rewrite !(assoc_L (∪)). f_equal. apply (comm_L (∪)).
Qed.

(** A merge step by step: the values, and the keys displaced. *)
Lemma merge_walk (l : list (string * Z)) (dest : gmap string Z) (displaced : gset string) :
  NoDup l.*1 →
  foldl (λ '(dest, displaced) kv,
           (g_hash_table_replace dest kv.1 kv.2,
            if decide (is_Some (dest !! kv.1)) then {[kv.1]} ∪ displaced else displaced))
        (dest, displaced) l
  = (foldl (λ dest kv, g_hash_table_replace dest kv.1 kv.2) dest l,
     (list_to_set l.*1 ∩ dom dest) ∪ displaced).
Proof.
  revert dest displaced. induction l as [|[k v] l IH]; intros dest displaced Hnd; simpl.
  - f_equal. by rewrite (left_absorb_L ∅ (∩)), (left_id_L ∅ (∪)).
  - apply NoDup_cons in Hnd as [Hfresh Hnd]. rewrite IH by done. f_equal.
    unfold g_hash_table_replace. simpl. rewrite dom_insert_L.
    assert (k ∉ (list_to_set l.*1 : gset string)) as Hk by (by rewrite elem_of_list_to_set).
    destruct (decide (is_Some (dest !! k))) as [Hin|Hout]; rewrite <- elem_of_dom in *;
      set_solver.
Qed.

Lemma mergeTables_eq (dest one two : gmap string Z) :
  _torflowslice_mergeTables dest one two
  = (foldl (λ dest kv, g_hash_table_replace dest kv.1 kv.2)
       (foldl (λ dest kv, g_hash_table_replace dest kv.1 kv.2) dest (map_to_list one))
       (map_to_list two),
     (dom two ∩ (dom one ∪ dom dest)) ∪ (dom one ∩ dom dest)).
Proof.
  unfold _torflowslice_mergeTables. cbn [foldl].
  rewrite !merge_walk by apply NoDup_fst_map_to_list. f_equal.
  rewrite replace_walk_dom.
  assert (∀ table : gmap string Z, list_to_set (map_to_list table).*1 =@{gset string} dom table)
    as Hdom.
  { intros table. apply set_eq. intros k.
    rewrite elem_of_list_to_set, elem_of_dom, list_elem_of_fmap. split.
    - intros ([k' v] & -> & Hin%elem_of_map_to_list). by exists v.
    - intros [v Hk]. exists (k, v). by rewrite elem_of_map_to_list. }
  rewrite !Hdom. by rewrite (right_id_L ∅ (∪)).
Qed.

Lemma targets_lookup (slice : TorFlowSlice) (k : string) :
  targets slice !! k
  = match exits slice !! k with
    | Some v => Some v
    | None => entries slice !! k
    end.
Proof.
  unfold targets. rewrite mergeTables_eq. cbn [fst].
  rewrite !replace_walk_lookup by apply NoDup_fst_map_to_list.
  rewrite !list_to_map_to_list. rewrite lookup_empty.
  destruct (exits slice !! k); [done|]. by destruct (entries slice !! k).
Qed.

(** With an empty destination the merge displaces the keys of the first
    table that come again in the second. *)
Lemma targets_displaced (slice : TorFlowSlice) :
  (_torflowslice_mergeTables ∅ (entries slice) (exits slice)).2
  = dom (entries slice) ∩ dom (exits slice).
Proof.
  rewrite mergeTables_eq. cbn [snd]. rewrite dom_empty_L. set_solver.
Qed.

(** ** Choosing a pair *)

Lemma unmetProbes_nonneg (target : Z) (table : gmap string Z) : 0 <= unmetProbes target table.
Proof.
  unfold unmetProbes, Zsum. induction (map_to_list table) as [|kv l IH]; [done|].
  rewrite fmap_cons. cbn [foldr]. lia.
Qed.

Lemma unmetProbes_empty (target : Z) : unmetProbes target ∅ = 0.
Proof. unfold unmetProbes. by rewrite map_to_list_empty. Qed.



Lemma peek_nth_elem (queue : list string) (n : Z) (id : string) :
  g_queue_peek_nth queue n = Some id → id ∈ queue.
Proof.
  unfold g_queue_peek_nth. destruct (n <? 0); [done|]. apply list_elem_of_lookup_2.
Qed.

(** The call, with the probe accounting and the bookkeeping of the key
    strings already carried out. *)
Lemma chooseRelayPair_unfold (randTarget randAuth : Z) (slice : TorFlowSlice) :
  let remaining := guint_wrap (unmetProbes (numProbesPerRelay slice) (entries slice)
                               + unmetProbes (numProbesPerRelay slice) (exits slice)) in
  let slice1 := set_totalProbesRemaining slice remaining in
  let candidateTargets := _torflowslice_getCandidates (targets slice) in
  let candidateAuths := _torflowslice_getCandidates (auths slice) in
  let displaced := dom (entries slice) ∩ dom (exits slice) in
  torflowslice_chooseRelayPair randTarget randAuth slice
  = if remaining <=? 0 then Returns (mkChoose None slice1 [])
    else if decide (keys_allocated slice) then
      match g_queue_peek_nth candidateTargets
              (_torflowslice_randomIndex randTarget (g_queue_get_length candidateTargets)),
            g_queue_peek_nth candidateAuths
              (_torflowslice_randomIndex randAuth (g_queue_get_length candidateAuths)) with
      | Some target, Some auth =>
          if decide (target ∈ displaced) then Undefined
          else
            let measureEntry := negb (g_hash_table_lookup (entries slice) target =? NULL) in
            let count :=
              guint_wrap ((if measureEntry then g_hash_table_lookup (entries slice) target
                           else g_hash_table_lookup (exits slice) target) + 1) in
            let after :=
              if measureEntry then set_entries slice1 (<[target := count]> (entries slice))
              else set_exits slice1 (<[target := count]> (exits slice)) in
            Returns
              (mkChoose (Some (mkPair target auth measureEntry))
                 (set_released after (dom (entries after)) (dom (exits after)))
                 [LOG_INFO])
      | _, _ => Returns (mkChoose None (set_released slice1 displaced ∅) [LOG_ERROR])
      end
    else Undefined.
Proof.
  intros. unfold torflowslice_chooseRelayPair.
  rewrite getNumProbesRemaining_eq. cbv zeta. fold remaining. fold slice1.
  destruct (remaining <=? 0); [done|].
  change (entries_released slice1) with (entries_released slice).
  change (exits_released slice1) with (exits_released slice).
  change (entries slice1) with (entries slice). change (exits slice1) with (exits slice).
  unfold keys_touched.
  destruct (decide (keys_allocated slice)) as [[He Hx]|Hreleased].
  2:{ destruct (decide (entries_released slice = ∅)) as [He|]; [|done].
      destruct (decide (exits_released slice = ∅)) as [Hx|]; [|done].
      by destruct Hreleased. }
  rewrite He, Hx. rewrite !decide_True by done. cbn [mbind Outcome_bind].
  pose proof (targets_displaced slice) as Hdisplaced. fold displaced in Hdisplaced.
  unfold targets in candidateTargets.
  destruct (_torflowslice_mergeTables ∅ (entries slice) (exits slice)) as [merged gone].
  cbn [fst snd] in *. subst gone. fold candidateTargets.
  change (auths (set_released slice1 displaced ∅)) with (auths slice). fold candidateAuths.
  destruct (g_queue_peek_nth candidateTargets _) as [target|]; [|done].
  destruct (g_queue_peek_nth candidateAuths _) as [auth|]; [|done].
  change (entries_released (set_released slice1 displaced ∅)) with displaced.
  change (exits_released (set_released slice1 displaced ∅)) with (∅ : gset string).
  unfold key_compared.
  destruct (decide (target ∈ displaced)); [done|].
  rewrite decide_False by set_solver. cbn [mbind Outcome_bind].
  change (entries (set_released slice1 displaced ∅)) with (entries slice).
  change (exits (set_released slice1 displaced ∅)) with (exits slice).
  unfold GPOINTER_TO_UINT, GUINT_TO_POINTER, g_hash_table_replace, g_hash_table_steal.
  destruct (negb (g_hash_table_lookup (entries slice) target =? NULL)); cbn;
    by rewrite insert_delete_eq.
Qed.

Import Examples.


Lemma fresh_slice_returns :
  fresh_slice
  = Returns (mkSlice 0 0%float 1 0 None false (<["a" := 0]> ∅) ∅ (<["x" := 0]> ∅) ∅ ∅).
Proof. reflexivity. Qed.




Lemma peek_random_singleton (id : string) (rInt : Z) :
  g_queue_peek_nth [id] (_torflowslice_randomIndex rInt (g_queue_get_length [id])) = Some id.
Proof.
  destruct (peek_random [id] rInt) as (id' & Hpeek & Hin); [done|].
  apply list_elem_of_singleton in Hin. by subst.
Qed.

(** What a successful call does to the three partitions and to the key
    strings: the authorities are left alone, the target is counted in the
    entries partition when its counter there is not 0, else in the exits
    partition, and every key of the two partitions is released. *)
Lemma chooseRelayPair_effect (randTarget randAuth : Z) (slice : TorFlowSlice)
    (result : ChooseResult) (pair : RelayPair) :
  torflowslice_chooseRelayPair randTarget randAuth slice = Returns result →
  chosen result = Some pair →
  let after := slice_after result in
  let target := targetID pair in
  auths after = auths slice
  ∧ measureEntry pair = negb (g_hash_table_lookup (entries slice) target =? NULL)
  ∧ (measureEntry pair = true →
     entries after
     = <[target := guint_wrap (g_hash_table_lookup (entries slice) target + 1)]> (entries slice)
     ∧ exits after = exits slice)
  ∧ (measureEntry pair = false →
     entries after = entries slice
     ∧ exits after
       = <[target := guint_wrap (g_hash_table_lookup (exits slice) target + 1)]> (exits slice))
  ∧ keys_allocated slice
  ∧ (target ∉ dom (entries slice) ∩ dom (exits slice))
  ∧ entries_released after = dom (entries after)
  ∧ exits_released after = dom (exits after).
Proof.
  rewrite chooseRelayPair_unfold. cbv zeta.
  destruct (_ <=? 0); [by intros [= <-]|].
  destruct (decide (keys_allocated slice)) as [Hlive|]; [|done].
  destruct (g_queue_peek_nth (_torflowslice_getCandidates (targets slice)) _)
    as [target|]; [|by intros [= <-]].
  destruct (g_queue_peek_nth (_torflowslice_getCandidates (auths slice)) _)
    as [auth|]; [|by intros [= <-]].
  destruct (decide (target ∈ _)) as [|Hfresh]; [done|].
  intros [= <-]. simpl. intros [= <-]. simpl.
  destruct (negb (g_hash_table_lookup (entries slice) target =? NULL)); simpl;
    split_and!; done.
Qed.

(** C3, the code at the failing input: on a slice with the unprobed entry
    relay "a" and the authority "x", whatever the draws, the call succeeds
    with target "a" but takes it for an exit: "x" is handed back as the
    entry and "a", by then a pointer to a released string, as the exit; the
    entries counter of "a" stays 0 and a counter "a" = 1 appears in the
    exits partition, which had none. *)
Theorem chooseRelayPair_unprobed_entry (randTarget randAuth : Z) :
  ∃ slice result,
    fresh_slice = Returns slice
    ∧ torflowslice_chooseRelayPair randTarget randAuth slice = Returns result
    ∧ entries slice !! "a" = Some 0
    ∧ exits slice !! "a" = None
    ∧ chosen result = Some (mkPair "a" "x" false)
    ∧ entryRelayIdentity <$> chosen result = Some (Live "x")
    ∧ exitRelayIdentity <$> chosen result = Some (Dangling "a")
    ∧ entries (slice_after result) !! "a" = Some 0
    ∧ exits (slice_after result) !! "a" = Some 1.
Proof.
  eexists. rewrite chooseRelayPair_unfold. cbv zeta.
  eexists. split; [exact fresh_slice_returns|].
  assert (_torflowslice_getCandidates
            (targets (mkSlice 0 0%float 1 0 None false (<["a" := 0]> ∅) ∅ (<["x" := 0]> ∅) ∅ ∅))
          = ["a"]) as -> by done.
  assert (_torflowslice_getCandidates
            (auths (mkSlice 0 0%float 1 0 None false (<["a" := 0]> ∅) ∅ (<["x" := 0]> ∅) ∅ ∅))
          = ["x"]) as -> by done.
  rewrite !peek_random_singleton.
  split; [reflexivity|].
  repeat split; vm_compute; done.
Qed.



(** C5, as amended: [torflowslice_getNumProbesRemaining] answers the sum
    over the entries and the exits of max(0, numProbesPerRelay - count),
    reduced modulo 2^32, which is the sum itself whenever that fits a
    [guint]; the authorities contribute nothing: replacing their table does
    not change the answer. *)
Theorem getNumProbesRemaining_sum (slice : TorFlowSlice) :
  let total := unmetProbes (numProbesPerRelay slice) (entries slice)
               + unmetProbes (numProbesPerRelay slice) (exits slice) in
  (torflowslice_getNumProbesRemaining slice).1 = total mod 4294967296
  ∧ (total <= G_MAXUINT → (torflowslice_getNumProbesRemaining slice).1 = total)
  ∧ ∀ table, (torflowslice_getNumProbesRemaining (set_auths slice table)).1
             = (torflowslice_getNumProbesRemaining slice).1.
Proof.
  cbv zeta. split; [|split].
  - by rewrite getNumProbesRemaining_eq.
  - intros Hfit. rewrite getNumProbesRemaining_eq. cbv zeta.
    apply guint_wrap_small. split; [|done].
    pose proof (unmetProbes_nonneg (numProbesPerRelay slice) (entries slice)).
    pose proof (unmetProbes_nonneg (numProbesPerRelay slice) (exits slice)). lia.
  - intros table. by rewrite !getNumProbesRemaining_eq.
Qed.

Lemma getNumProbesRemaining_sum_witness :
  ∃ slice,
    fresh_slice = Returns slice
    ∧ unmetProbes (numProbesPerRelay slice) (entries slice)
      + unmetProbes (numProbesPerRelay slice) (exits slice) <= G_MAXUINT
    ∧ (torflowslice_getNumProbesRemaining slice).1
      = unmetProbes (numProbesPerRelay slice) (entries slice)
        + unmetProbes (numProbesPerRelay slice) (exits slice).
Proof.
  eexists. split; [exact fresh_slice_returns|].
  match goal with |- ?fits ∧ _ => assert fits as H by (vm_compute; discriminate) end.
  split; [exact H|].
  exact (proj1 (proj2 (getNumProbesRemaining_sum _)) H).
Defined.

(** C5 fails as stated: with one entry and one exit, both unprobed, and
    2^31 probes wanted per relay, the sum is 2^32 and the answer is 0. *)
Lemma getNumProbesRemaining_wraps :
  ∃ slice,
    greedy_slice = Returns slice
    ∧ unmetProbes (numProbesPerRelay slice) (entries slice)
      + unmetProbes (numProbesPerRelay slice) (exits slice) = 4294967296
    ∧ (torflowslice_getNumProbesRemaining slice).1 = 0.
Proof. eexists. split; [reflexivity|]. vm_compute. done. Qed.

(** ** Case-insensitive comparison *)

Import ContainsSpec.

Lemma tolower_zero (c : ascii) : g_ascii_tolower c = 0 ↔ byte c = 0.
Proof.
  unfold g_ascii_tolower. destruct ((65 <=? byte c) && (byte c <=? 90)) eqn:H; [|done].
  apply andb_true_iff in H as [H1%Z.leb_le H2%Z.leb_le]. lia.
Qed.

Lemma strcasecmp_caseless (s1 s2 : string) :
  g_ascii_strcasecmp s1 s2 = 0 ↔ ascii_caseless_eq s1 s2.
Proof.
  unfold ascii_caseless_eq. revert s2.
  induction s1 as [|a r1 IH]; intros [|b r2]; simpl.
  - done.
  - destruct (Z.eqb_spec (byte b) 0) as [Hb|Hb]; simpl; split; intros H; try done; lia.
  - destruct (Z.eqb_spec (byte a) 0) as [Ha|Ha]; simpl; split; intros H; try done; lia.
  - destruct (Z.eqb_spec (byte a) 0) as [Ha|Ha]; destruct (Z.eqb_spec (byte b) 0) as [Hb|Hb];
      simpl; try (split; intros H; try done; lia).
    destruct (Z.eqb_spec (g_ascii_tolower a) (g_ascii_tolower b)) as [Heq|Hne].
    + rewrite IH, Heq. split; [by intros ->|by intros [= ->]].
    + split; [intros H; lia|]. intros [= H _]. done.
Qed.

Lemma strcasecmp_refl (s : string) : g_ascii_strcasecmp s s = 0.
Proof. by apply strcasecmp_caseless. Qed.

Lemma strcasecmp_sym (s1 s2 : string) :
  g_ascii_strcasecmp s1 s2 = 0 → g_ascii_strcasecmp s2 s1 = 0.
Proof. rewrite !strcasecmp_caseless. unfold ascii_caseless_eq. by intros ->. Qed.

(** ** Membership *)

Lemma FindRelayID_walk (l : list (string * Z)) (slice : TorFlowSlice) (search : string) :
  relayIDSearch slice = Some search →
  foldl (λ acc kv, _torflowslice_FindRelayID kv.1 kv.2 acc) slice l
  = set_relayIDFound slice
      (relayIDFound slice || existsb (λ kv : string * Z, g_ascii_strcasecmp kv.1 search =? 0) l).
Proof.
  revert slice. induction l as [|[k v] l IH]; intros slice Hsearch; simpl.
  - rewrite orb_false_r. by destruct slice.
  - unfold _torflowslice_FindRelayID at 2. rewrite Hsearch.
    destruct (g_ascii_strcasecmp k search =? 0); simpl.
    + rewrite IH by (by destruct slice). destruct slice; simpl in *.
      unfold set_relayIDFound, set_cache; simpl. by rewrite orb_true_r.
    + by rewrite IH.
Qed.

Lemma matches_holds (table : gmap string Z) (id : string) :
  matches table id = true ↔ holds_caseless table id.
Proof.
  unfold matches, holds_caseless. rewrite existsb_exists. split.
  - intros ([k v] & Hin%list_elem_of_In%elem_of_map_to_list & Hcmp%Z.eqb_eq).
    exists k. split; [by exists v|]. by apply strcasecmp_caseless.
  - intros (k & [v Hk] & Hcmp). exists (k, v). split.
    + by apply list_elem_of_In, elem_of_map_to_list.
    + apply Z.eqb_eq. by apply strcasecmp_caseless.
Qed.

(** A query the cache cannot answer walks the entries and, when it has
    found nothing there, the exits: the keys it walks over must be
    allocated. *)
Lemma contains_scan (slice : TorFlowSlice) (id : string) :
  ¬ cache_hit slice id →
  let found := matches (entries slice) id || matches (exits slice) id in
  torflowslice_contains slice (Some id)
  = if decide (entries_released slice = ∅) then
      if matches (entries slice) id then
        Returns (mkContains found (set_cache slice (Some id) found) true)
      else if decide (exits_released slice = ∅) then
        Returns (mkContains found (set_cache slice (Some id) found) true)
      else Undefined
    else Undefined.
Proof.
  intros Hmiss. cbv zeta. unfold torflowslice_contains, g_hash_table_foreach, keys_touched.
  assert (∀ s, set_cache s (Some id) false = set_cache slice (Some id) false →
    (let slice0 := set_cache s (Some id) false in
     _ ← (if decide (entries_released slice0 = ∅) then Returns () else Undefined);
     let slice1 := foldl (λ acc kv, _torflowslice_FindRelayID kv.1 kv.2 acc) slice0
                     (map_to_list (entries slice0)) in
     if negb (relayIDFound slice1) then
       _ ← (if decide (exits_released slice1 = ∅) then Returns () else Undefined);
       let slice2 := foldl (λ acc kv, _torflowslice_FindRelayID kv.1 kv.2 acc) slice1
                       (map_to_list (exits slice1)) in
       Returns (mkContains (relayIDFound slice2) slice2 true)
     else Returns (mkContains (relayIDFound slice1) slice1 true))
    = if decide (entries_released slice = ∅) then
        if matches (entries slice) id then
          Returns (mkContains (matches (entries slice) id || matches (exits slice) id)
                     (set_cache slice (Some id)
                        (matches (entries slice) id || matches (exits slice) id)) true)
        else if decide (exits_released slice = ∅) then
          Returns (mkContains (matches (entries slice) id || matches (exits slice) id)
                     (set_cache slice (Some id)
                        (matches (entries slice) id || matches (exits slice) id)) true)
        else Undefined
      else Undefined) as Hscan.
  { intros s Hs. cbv zeta. rewrite Hs.
    change (entries_released (set_cache slice (Some id) false)) with (entries_released slice).
    destruct (decide (entries_released slice = ∅)); [|done]. cbn [mbind Outcome_bind].
    rewrite (FindRelayID_walk _ _ id) by done. simpl.
    fold (matches (entries slice) id).
    destruct (matches (entries slice) id) eqn:Hm; simpl; [done|].
    destruct (decide (exits_released slice = ∅)); [|done]. cbn [mbind Outcome_bind].
    rewrite (FindRelayID_walk _ _ id) by done. simpl.
    by fold (matches (exits slice) id). }
  destruct (relayIDSearch slice) as [cached|] eqn:Hcache.
  - destruct (Z.eqb_spec (g_ascii_strcasecmp id cached) 0) as [Hhit|_].
    { exfalso. apply Hmiss. by exists cached. }
    by apply Hscan.
  - by apply Hscan.
Qed.

Lemma contains_scan_allocated (slice : TorFlowSlice) (id : string) :
  keys_allocated slice → ¬ cache_hit slice id →
  let found := matches (entries slice) id || matches (exits slice) id in
  torflowslice_contains slice (Some id)
  = Returns (mkContains found (set_cache slice (Some id) found) true).
Proof.
  intros [He Hx] Hmiss. rewrite contains_scan by done. cbv zeta.
  rewrite !decide_True by done. by destruct (matches (entries slice) id).
Qed.

(** A query the cache can answer does not look at the partitions. *)
Lemma contains_hit (slice : TorFlowSlice) (id : string) :
  cache_hit slice id →
  torflowslice_contains slice (Some id) = Returns (mkContains (relayIDFound slice) slice false).
Proof.
  intros (cached & Hcache & Hcmp). unfold torflowslice_contains.
  by rewrite Hcache, Hcmp.
Qed.

Lemma addRelay_unfold (slice : TorFlowSlice) (relay : TorFlowRelay) (flag : bool) :
  let id := torflowrelay_getIdentity relay in
  torflowslice_addRelay slice relay flag
  = if torflowrelay_getIsAuth relay then Returns (set_auths slice (<[id := 0]> (auths slice)))
    else if torflowrelay_getIsExit relay then
      if decide (id ∈ exits_released slice) then Undefined
      else Returns (set_exits slice (<[id := 0]> (exits slice)))
    else if flag then Returns slice
    else if decide (id ∈ entries_released slice) then Undefined
    else Returns (set_entries slice (<[id := 0]> (entries slice))).
Proof.
  cbv zeta. unfold torflowslice_addRelay, key_compared, g_hash_table_replace, GUINT_TO_POINTER.
  destruct (torflowrelay_getIsAuth relay); [done|].
  destruct (torflowrelay_getIsExit relay).
  - by destruct (decide (_ ∈ _)).
  - destruct flag; [done|]. by destruct (decide (_ ∈ _)).
Qed.

Lemma addRelay_returns (slice : TorFlowSlice) (relay : TorFlowRelay) (flag : bool) :
  keys_allocated slice →
  ∃ after, torflowslice_addRelay slice relay flag = Returns after ∧ keys_allocated after.
Proof.
  intros [He Hx]. rewrite addRelay_unfold. cbv zeta. rewrite He, Hx.
  destruct (torflowrelay_getIsAuth relay); [by eexists|].
  destruct (torflowrelay_getIsExit relay).
  - rewrite decide_False by set_solver. by eexists.
  - destruct flag; [by eexists|]. rewrite decide_False by set_solver. by eexists.
Qed.

Lemma addRelay_cache (slice after : TorFlowSlice) (relay : TorFlowRelay) (flag : bool) :
  torflowslice_addRelay slice relay flag = Returns after →
  relayIDSearch after = relayIDSearch slice
  ∧ relayIDFound after = relayIDFound slice
  ∧ entries_released after = entries_released slice
  ∧ exits_released after = exits_released slice.
Proof.
  rewrite addRelay_unfold. cbv zeta.
  destruct (torflowrelay_getIsAuth relay); [by intros [= <-]|].
  destruct (torflowrelay_getIsExit relay).
  - destruct (decide (_ ∈ _)); [done|]. by intros [= <-].
  - destruct flag; [by intros [= <-]|]. destruct (decide (_ ∈ _)); [done|]. by intros [= <-].
Qed.

Lemma addRelay_keys (slice after : TorFlowSlice) (relay : TorFlowRelay) (flag : bool)
    (k : string) :
  torflowslice_addRelay slice relay flag = Returns after →
  is_Some (entries after !! k) ∨ is_Some (exits after !! k) →
  k = torflowrelay_getIdentity relay
  ∨ is_Some (entries slice !! k) ∨ is_Some (exits slice !! k).
Proof.
  rewrite addRelay_unfold. cbv zeta.
  destruct (torflowrelay_getIsAuth relay); [intros [= <-]; simpl; tauto|].
  destruct (torflowrelay_getIsExit relay).
  - destruct (decide (_ ∈ _)); [done|]. intros [= <-]. simpl.
    destruct (decide (k = torflowrelay_getIdentity relay)) as [->|Hne]; [by left|].
    rewrite lookup_insert_ne by done. tauto.
  - destruct flag; [intros [= <-]; tauto|]. destruct (decide (_ ∈ _)); [done|].
    intros [= <-]. simpl.
    destruct (decide (k = torflowrelay_getIdentity relay)) as [->|Hne]; [by left|].
    rewrite lookup_insert_ne by done. tauto.
Qed.

(** Building on a slice whose keys are allocated stays within defined
    behaviour, and the keys stay allocated. *)
Lemma build_returns (relays : list (TorFlowRelay * bool)) (slice : TorFlowSlice) :
  keys_allocated slice →
  ∃ built,
    for_each (λ slice rb, torflowslice_addRelay slice rb.1 rb.2) slice relays = Returns built
    ∧ keys_allocated built.
Proof.
  revert slice. induction relays as [|rb relays IH]; intros slice Hlive; simpl; [by eexists|].
  destruct (addRelay_returns slice rb.1 rb.2 Hlive) as (after & -> & Hafter).
  by apply IH.
Qed.

Lemma build_keys (relays : list (TorFlowRelay * bool)) (slice built : TorFlowSlice) (k : string) :
  for_each (λ slice rb, torflowslice_addRelay slice rb.1 rb.2) slice relays = Returns built →
  is_Some (entries built !! k) ∨ is_Some (exits built !! k) →
  (∃ rb, rb ∈ relays ∧ k = torflowrelay_getIdentity rb.1)
  ∨ is_Some (entries slice !! k) ∨ is_Some (exits slice !! k).
Proof.
  revert slice. induction relays as [|rb relays IH]; intros slice; simpl.
  { intros [= <-]. tauto. }
  destruct (torflowslice_addRelay slice rb.1 rb.2) as [|after] eqn:Hadd; [done|].
  cbn [mbind Outcome_bind]. intros Hbuilt [(rb' & Hin & Hk)|Hold]%(IH _ Hbuilt).
  - left. exists rb'. split; [by apply elem_of_cons; right|done].
  - apply (addRelay_keys _ _ _ _ _ Hadd) in Hold as [Hk|Hold]; [|tauto].
    left. exists rb. split; [by apply elem_of_cons; left|done].
Qed.

Lemma build_cache (relays : list (TorFlowRelay * bool)) (slice built : TorFlowSlice) :
  for_each (λ slice rb, torflowslice_addRelay slice rb.1 rb.2) slice relays = Returns built →
  relayIDSearch built = relayIDSearch slice.
Proof.
  revert slice. induction relays as [|rb relays IH]; intros slice; simpl.
  { by intros [= <-]. }
  destruct (torflowslice_addRelay slice rb.1 rb.2) as [|after] eqn:Hadd; [done|].
  cbn [mbind Outcome_bind]. intros Hbuilt. rewrite (IH _ Hbuilt).
  by destruct (addRelay_cache _ _ _ _ Hadd) as (-> & _).
Qed.

(** C9, as amended: on a slice whose key strings are all allocated, after
    [torflowslice_addRelay] with the flag off has placed a relay that is no
    authority (so in the entries or exits partition),
    [torflowslice_contains] on its identity answers true unless the
    one-slot cache still holds that identity, up to case, with the answer
    false; on a slice built from scratch out of relays none of which has
    the identity up to case, it answers false; and asking twice in a row
    for the same identity gives the first answer again, from the cache,
    without walking the partitions (whatever they hold by then, allocated
    or not) and without changing the slice. *)
Theorem contains_roundtrip (slice : TorFlowSlice) (relay : TorFlowRelay) (query : string)
    (sliceID : Z) (percentile : float) (numProbes : Z) (others : list (TorFlowRelay * bool)) :
  keys_allocated slice →
  torflowrelay_getIsAuth relay = false →
  (cache_hit slice (torflowrelay_getIdentity relay) → relayIDFound slice = true) →
  Forall (λ rb, ¬ ascii_caseless_eq (torflowrelay_getIdentity rb.1)
                                     (torflowrelay_getIdentity relay)) others →
  answer <$> (added ← torflowslice_addRelay slice relay false;
              torflowslice_contains added (Some (torflowrelay_getIdentity relay)))
  = Returns true
  ∧ answer <$> (built ← build sliceID percentile numProbes others;
                torflowslice_contains built (Some (torflowrelay_getIdentity relay)))
    = Returns false
  ∧ ∃ first second,
      torflowslice_contains slice (Some query) = Returns first
      ∧ torflowslice_contains (slice_then first) (Some query) = Returns second
      ∧ answer second = answer first ∧ scanned second = false
      ∧ slice_then second = slice_then first
      ∧ ∀ (e x a : gmap string Z) (re rx : gset string),
          answer <$> torflowslice_contains
                       (set_released
                          (set_auths (set_exits (set_entries (slice_then first) e) x) a) re rx)
                       (Some query)
          = Returns (answer first).
Proof.
  intros Hlive Hrole Hcache Hothers. set (id := torflowrelay_getIdentity relay).
  split; [|split].
  - destruct (addRelay_returns slice relay false Hlive) as (slice' & Hadd & Hlive').
    rewrite Hadd. cbn [mbind Outcome_bind].
    destruct (addRelay_cache _ _ _ _ Hadd) as (Hsearch & Hfound & _).
    destruct (decide (cache_hit slice' id)) as [Hhit|Hmiss].
    + rewrite contains_hit by done. simpl. f_equal. rewrite Hfound.
      apply Hcache. destruct Hhit as (cached & Hc & Hcmp). exists cached.
      split; [|done]. by rewrite <- Hsearch.
    + rewrite contains_scan_allocated by done. simpl. f_equal. apply orb_true_iff.
      assert (is_Some (entries slice' !! id) ∨ is_Some (exits slice' !! id)) as [Hin|Hin].
      { rewrite addRelay_unfold in Hadd. cbv zeta in Hadd. rewrite Hrole in Hadd. fold id in Hadd.
        destruct (torflowrelay_getIsExit relay).
        - destruct (decide (_ ∈ _)); [done|]. injection Hadd as <-. simpl.
          rewrite lookup_insert_eq. eauto.
        - destruct (decide (_ ∈ _)); [done|]. injection Hadd as <-. simpl.
          rewrite lookup_insert_eq. eauto. }
      * left. apply matches_holds. exists id. split; [done|]. by apply strcasecmp_caseless, strcasecmp_refl.
      * right. apply matches_holds. exists id. split; [done|]. by apply strcasecmp_caseless, strcasecmp_refl.
  - unfold build.
    destruct (build_returns others (torflowslice_new sliceID percentile numProbes))
      as (built & Hbuilt & Hlive'); [done|].
    rewrite Hbuilt. cbn [mbind Outcome_bind].
    rewrite contains_scan_allocated; [|done|].
    2: { intros (cached & Hc & _). by rewrite (build_cache _ _ _ Hbuilt) in Hc. }
    simpl. f_equal. apply orb_false_iff.
    assert (∀ k, is_Some (entries built !! k) ∨ is_Some (exits built !! k) →
                 ¬ ascii_caseless_eq k id) as Hkeys.
    { intros k [(rb & Hin & ->)|[Hk|Hk]]%(build_keys _ _ _ _ Hbuilt).
      - rewrite Forall_forall in Hothers. by apply Hothers.
      - simpl in Hk. rewrite lookup_empty in Hk. by destruct Hk.
      - simpl in Hk. rewrite lookup_empty in Hk. by destruct Hk. }
    split; apply not_true_is_false; intros (k & Hk & Hcmp)%matches_holds;
      apply (Hkeys k); tauto.
  - assert (∃ first, torflowslice_contains slice (Some query) = Returns first
                     ∧ cache_hit (slice_then first) query
                     ∧ relayIDFound (slice_then first) = answer first)
      as (first & Hfirst & Hagain & Hfound).
    { destruct (decide (cache_hit slice query)) as [Hhit|Hmiss].
      - rewrite (contains_hit slice) by done. by eexists.
      - rewrite (contains_scan_allocated slice) by done. eexists. split; [done|].
        cbn [slice_then answer]. split; [|done].
        exists query. split; [done|apply strcasecmp_refl]. }
    exists first. eexists. split; [done|].
    split; [by apply contains_hit|]. cbn [slice_then answer scanned].
    repeat split; try done.
    intros e x a re rx. rewrite contains_hit; [simpl; by f_equal|].
    destruct Hagain as (cached & Hc & Hcmp). by exists cached.
Qed.

Lemma contains_roundtrip_witness :
  ∃ slice,
    fresh_slice = Returns slice
    ∧ answer <$> (added ← torflowslice_addRelay slice (relay "b" false true) false;
                  torflowslice_contains added (Some "b"))
      = Returns true
    ∧ answer <$> (built ← build 0 0%float 1 [(relay "c" false false, false)];
                  torflowslice_contains built (Some "b"))
      = Returns false
    ∧ ∃ first second,
        torflowslice_contains slice (Some "a") = Returns first
        ∧ torflowslice_contains (slice_then first) (Some "a") = Returns second
        ∧ answer second = answer first ∧ scanned second = false
        ∧ slice_then second = slice_then first
        ∧ ∀ (e x a : gmap string Z) (re rx : gset string),
            answer <$> torflowslice_contains
                         (set_released
                            (set_auths (set_exits (set_entries (slice_then first) e) x) a) re rx)
                         (Some "a")
            = Returns (answer first).
Proof.
  eexists. split; [exact fresh_slice_returns|].
  apply (contains_roundtrip _ (relay "b" false true) "a" 0 0%float 1
           [(relay "c" false false, false)]).
  - split; reflexivity.
  - reflexivity.
  - intros (cached & Hc & _). discriminate Hc.
  - constructor; [|constructor]. unfold ascii_caseless_eq. vm_compute. discriminate.
Defined.

Lemma stale_slice_returns :
  stale_slice
  = Returns (mkSlice 0 0%float 1 0 (Some "A") false (<["A" := 0]> ∅) ∅ ∅ ∅ ∅).
Proof. reflexivity. Qed.

(** C9 fails as stated: "A" is looked up on an empty slice, then added as an
    entry; the entries partition holds "A", yet the next lookup of "A" is
    answered false, from the cache. *)
Lemma contains_stale_after_addRelay :
  ∃ slice,
    stale_slice = Returns slice
    ∧ entries slice !! "A" = Some 0
    ∧ torflowslice_contains slice (Some "A") = Returns (mkContains false slice false).
Proof. eexists. split; [exact stale_slice_returns|]. vm_compute. done. Qed.

(** C10, as amended: for a query that the one-slot cache does not answer
    (the cache is empty or holds an identity that differs from the query
    beyond letter case), on a slice whose key strings are all allocated,
    [torflowslice_contains] answers true exactly when some key of the
    entries partition or of the exits partition equals the query up to
    ASCII case folding; a query that the cache answers gets the cached
    flag, whatever the partitions hold; a NULL query is answered false;
    and a query that the cache does not answer is undefined exactly when
    the walk meets a released key: some key of the entries partition is
    released, or the entries hold no match and some key of the exits
    partition is released. *)
Theorem contains_caseless (slice : TorFlowSlice) (id : string) :
  (keys_allocated slice → ¬ cache_hit slice id →
   ∃ result,
     torflowslice_contains slice (Some id) = Returns result
     ∧ (answer result = true
        ↔ holds_caseless (entries slice) id ∨ holds_caseless (exits slice) id))
  ∧ (cache_hit slice id →
     answer <$> torflowslice_contains slice (Some id) = Returns (relayIDFound slice))
  ∧ answer <$> torflowslice_contains slice None = Returns false
  ∧ (¬ cache_hit slice id →
     (torflowslice_contains slice (Some id) = Undefined
      ↔ entries_released slice ≠ ∅
        ∨ (¬ holds_caseless (entries slice) id ∧ exits_released slice ≠ ∅))).
Proof.
  split; [|split; [|split]]; [| |done|].
  - intros Hlive Hmiss. rewrite contains_scan_allocated by done. eexists. split; [done|].
    simpl. by rewrite orb_true_iff, !matches_holds.
  - intros Hhit. by rewrite contains_hit.
  - intros Hmiss. rewrite contains_scan by done. cbv zeta.
    rewrite <- (matches_holds (entries slice) id).
    destruct (decide (entries_released slice = ∅)) as [He|He]; [|by split; [left|]].
    destruct (matches (entries slice) id).
    { split; [done|]. intros [?|[Hno _]]; [done|]. by destruct Hno. }
    destruct (decide (exits_released slice = ∅)) as [Hx|Hx].
    + split; [done|]. by intros [?|[_ ?]].
    + split; [|done]. intros _. right. by split.
Qed.

Lemma contains_caseless_witness :
  ∃ fresh stale result,
    fresh_slice = Returns fresh
    ∧ stale_slice = Returns stale
    ∧ torflowslice_contains fresh (Some "A") = Returns result
    ∧ (answer result = true
       ↔ holds_caseless (entries fresh) "A" ∨ holds_caseless (exits fresh) "A")
    ∧ answer <$> torflowslice_contains stale (Some "a") = Returns (relayIDFound stale).
Proof.
  do 2 eexists.
  destruct (proj1 (contains_caseless _ "A") (conj eq_refl eq_refl
              : keys_allocated
                  (mkSlice 0 0%float 1 0 None false (<["a" := 0]> ∅) ∅ (<["x" := 0]> ∅) ∅ ∅)))
    as (result & Hresult & Hiff).
  { intros (cached & Hc & _). discriminate Hc. }
  exists result. split; [exact fresh_slice_returns|]. split; [exact stale_slice_returns|].
  split; [exact Hresult|]. split; [exact Hiff|].
  apply (proj1 (proj2 (contains_caseless _ "a"))).
  exists "A". split; reflexivity.
Defined.

(** C10 fails as stated: the entries partition of the slice holds the key
    "A", which equals "a" up to case, yet the lookup of "a" is answered
    false, from the cache. *)
Lemma contains_stale_caseless :
  ∃ slice,
    stale_slice = Returns slice
    ∧ entries slice !! "A" = Some 0
    ∧ g_ascii_strcasecmp "A" "a" = 0
    ∧ answer <$> torflowslice_contains slice (Some "a") = Returns false.
Proof. eexists. split; [exact stale_slice_returns|]. vm_compute. done. Qed.

(** Letter case does not matter: the entry "a" is found under "A". *)
Example contains_other_case :
  answer <$> (slice ← fresh_slice; torflowslice_contains slice (Some "A")) = Returns true.
Proof. vm_compute. done. Qed.

(** ** The publish *)

Import Aggregator PublishSpec Runs.

Lemma gint_wrap_small z : is_gint z → gint_wrap z = z.
Proof.
  unfold is_gint, gint_wrap, G_MININT, G_MAXINT. intros.
  rewrite Z.mod_small by lia. lia.
Qed.

Lemma gint_wrap_add_l a b : gint_wrap (gint_wrap a + b) = gint_wrap (a + b).
Proof.
  unfold gint_wrap. f_equal.
  replace ((a + 2147483648) mod 4294967296 - 2147483648 + b + 2147483648)
    with ((a + 2147483648) mod 4294967296 + b) by lia.
  rewrite Zplus_mod_idemp_l. f_equal. lia.
Qed.

Lemma foldl_pair {A B X} (F : A → X → A) (G : B → X → B) (l : list X) (a : A) (b : B) :
  foldl (λ '(a, b) x, (F a x, G b x)) (a, b) l = (foldl F a l, foldl G b l).
Proof. revert a b. induction l as [|x l IH]; intros a b; simpl; [done|apply IH]. Qed.

Lemma gint_sum_walk {X} (g : X → Z) (l : list X) (t : Z) :
  gint_wrap (foldl (λ t x, gint_wrap (t + g x)) t l) = gint_wrap (t + Zsum (g <$> l)).
Proof.
  unfold Zsum. revert t. induction l as [|x l IH]; intros t; simpl.
  - by rewrite Z.add_0_r.
  - rewrite IH, gint_wrap_add_l. f_equal. symmetry. apply Z.add_assoc.
Qed.

Lemma gint_wrap_range z : is_gint (gint_wrap z).
Proof.
  unfold is_gint, gint_wrap, G_MININT, G_MAXINT.
  pose proof (Z.mod_pos_bound (z + 2147483648) 4294967296). lia.
Qed.

Lemma gint_sum_walk_0 {X} (g : X → Z) (l : list X) :
  foldl (λ t x, gint_wrap (t + g x)) 0 l = gint_wrap (Zsum (g <$> l)).
Proof.
  assert (∀ t, is_gint t → is_gint (foldl (λ t x, gint_wrap (t + g x)) t l)) as Hrange.
  { induction l as [|x l IH]; intros t Ht; simpl; [done|]. apply IH, gint_wrap_range. }
  rewrite <- (gint_wrap_small (foldl _ 0 l)).
  - by rewrite gint_sum_walk.
  - apply Hrange. unfold is_gint, G_MININT, G_MAXINT. lia.
Qed.

Lemma insert_walk_lookup {V W} (f : V → W) (l : list (string * V))
    (dest : gmap string W) (k : string) :
  NoDup l.*1 →
  foldl (λ dest kv, <[kv.1 := f kv.2]> dest) dest l !! k
  = match (list_to_map l : gmap string V) !! k with
    | Some v => Some (f v)
    | None => dest !! k
    end.
Proof.
  revert dest. induction l as [|[k' v'] l IH]; intros dest Hnd; simpl.
  - by rewrite lookup_empty.
  - apply NoDup_cons in Hnd as [Hnotin Hnd]. rewrite IH by done. simpl.
    destruct (decide (k' = k)) as [->|Hne].
    + rewrite lookup_insert_eq.
      rewrite (not_elem_of_list_to_map_1 l k) by done. by rewrite lookup_insert_eq.
    + rewrite !lookup_insert_ne by done. done.
Qed.

Lemma table_walk_lookup {V W} (f : V → W) (table : gmap string V)
    (dest : gmap string W) (k : string) :
  foldl (λ dest kv, <[kv.1 := f kv.2]> dest) dest (map_to_list table) !! k
  = match table !! k with
    | Some v => Some (f v)
    | None => dest !! k
    end.
Proof.
  rewrite insert_walk_lookup by apply NoDup_fst_map_to_list.
  by rewrite list_to_map_to_list.
Qed.

Lemma sumBandwidths_eq (table : gmap string TorFlowRelayStats) :
  sumBandwidths table
  = (gint_wrap (totalOf meanBandwidth table), gint_wrap (totalOf filteredBandwidth table)).
Proof.
  unfold sumBandwidths, totalOf.
  rewrite <- (gint_sum_walk_0 (λ kv : string * TorFlowRelayStats, meanBandwidth kv.2)).
  rewrite <- (gint_sum_walk_0 (λ kv : string * TorFlowRelayStats, filteredBandwidth kv.2)).
  apply (foldl_pair (λ t kv, gint_wrap (t + meanBandwidth kv.2))
                    (λ t kv, gint_wrap (t + filteredBandwidth kv.2))).
Qed.

Lemma assignNewBandwidths_eq (avgMeanBW avgFiltBW : float)
    (table : gmap string TorFlowRelayStats) :
  assignNewBandwidths avgMeanBW avgFiltBW table
  = (foldl (λ stats kv,
              <[kv.1 := set_newBandwidth kv.2 (computeNewBandwidth avgMeanBW avgFiltBW kv.2)]> stats)
           table (map_to_list table),
     gint_wrap (totalOf (computeNewBandwidth avgMeanBW avgFiltBW) table)).
Proof.
  unfold assignNewBandwidths, totalOf.
  rewrite <- (gint_sum_walk_0
    (λ kv : string * TorFlowRelayStats, computeNewBandwidth avgMeanBW avgFiltBW kv.2)).
  apply (foldl_pair
    (λ stats kv,
       <[kv.1 := set_newBandwidth kv.2 (computeNewBandwidth avgMeanBW avgFiltBW kv.2)]> stats)
    (λ t kv, gint_wrap (t + computeNewBandwidth avgMeanBW avgFiltBW kv.2))).
Qed.

Lemma capAndPrint_stats (cap : Z) (table : gmap string TorFlowRelayStats) (k : string) :
  (capAndPrint cap table).1 !! k
  = (λ current, if cap <? newBandwidth current then set_newBandwidth current cap else current)
      <$> table !! k.
Proof.
  unfold capAndPrint.
  set (F := λ (stats : gmap string TorFlowRelayStats) (kv : string * TorFlowRelayStats),
              <[kv.1 := if cap <? newBandwidth kv.2 then set_newBandwidth kv.2 cap else kv.2]> stats).
  set (G := λ (events : list Event) (kv : string * TorFlowRelayStats),
              let current := if cap <? newBandwidth kv.2 then set_newBandwidth kv.2 cap else kv.2 in
              events
              ++ (if cap <? newBandwidth kv.2 then
                    [Slogf LOG_MESSAGE
                       ("Capping bandwidth for extremely fast relay " +:+ nickname current +:+ newline)]
                  else [])
              ++ [Fprintf ("node_id=$" +:+ identity current +:+ " bw=" +:+ pretty (newBandwidth current)
                             +:+ " nick=" +:+ nickname current +:+ newline)]).
  rewrite (foldl_pair F G). simpl. unfold F.
  rewrite (table_walk_lookup
    (λ current, if cap <? newBandwidth current then set_newBandwidth current cap else current)).
  by destruct (table !! k).
Qed.

(** The third loop logs at message level and prints; it opens no file, logs
    no warning and makes no system call. *)
Lemma capAndPrint_events (cap : Z) (table : gmap string TorFlowRelayStats) :
  warnings (capAndPrint cap table).2 = []
  ∧ opened (capAndPrint cap table).2 = []
  ∧ attempts (capAndPrint cap table).2 = [].
Proof.
  unfold capAndPrint.
  set (step := λ '(stats, events) kv, _).
  assert (∀ l acc,
    warnings acc.2 = [] ∧ opened acc.2 = [] ∧ attempts acc.2 = [] →
    warnings (foldl step acc l).2 = [] ∧ opened (foldl step acc l).2 = []
    ∧ attempts (foldl step acc l).2 = []) as H.
  { induction l as [|kv l IH]; intros [stats events] Hacc; simpl; [done|].
    apply IH. simpl in *. unfold warnings, opened, attempts in *. rewrite !omap_app.
    destruct Hacc as (-> & -> & ->). by destruct (cap <? newBandwidth kv.2). }
  by apply H.
Qed.

Lemma redistribute_lookup (table : gmap string TorFlowRelayStats) (k : string) :
  let count := CDouble.of_Z (Z.of_nat (size table)) in
  let avgMeanBW :=
    PrimFloat.div (CDouble.of_Z (gint_wrap (totalOf meanBandwidth table))) count in
  let avgFiltBW :=
    PrimFloat.div (CDouble.of_Z (gint_wrap (totalOf filteredBandwidth table))) count in
  (redistribute table).1 !! k
  = (λ current, set_newBandwidth current (computeNewBandwidth avgMeanBW avgFiltBW current))
      <$> table !! k
  ∧ (redistribute table).2 = gint_wrap (totalOf (computeNewBandwidth avgMeanBW avgFiltBW) table).
Proof.
  cbv zeta. unfold redistribute. rewrite sumBandwidths_eq, assignNewBandwidths_eq.
  unfold g_hash_table_size. simpl. split; [|done].
  rewrite (table_walk_lookup (λ current, set_newBandwidth current (computeNewBandwidth _ _ current))).
  by destruct (table !! k).
Qed.

Lemma printToFile_unfold (now_sec unlink_ret symlink_ret : Z) (tfa : TorFlowAggregator) :
  let newFilename := filename tfa +:+ "." +:+ pretty (version tfa) in
  let cap := CDouble.to_gint
               (PrimFloat.mul (CDouble.of_Z (redistribute (relayStats tfa)).2) (nodeCap tfa)) in
  let capped := capAndPrint cap (redistribute (relayStats tfa)).1 in
  _torflowaggregator_printToFile now_sec unlink_ret symlink_ret tfa
  = (mkAggregator (numWorkers tfa) (gotInitial tfa) (filename tfa) capped.1 (nodeCap tfa)
       (gint_wrap (version tfa + 1)) (relayStats_released tfa),
     [Fopen newFilename; Fprintf (pretty now_sec +:+ newline)] ++ capped.2 ++ [Fclose]
     ++ [Unlink (filename tfa)]
     ++ (if unlink_ret =? 0 then
           [Slogf LOG_WARNING ("Unable to remove symlink to " +:+ filename tfa +:+ "!" +:+ newline)]
         else [])
     ++ [Symlink newFilename (filename tfa)]
     ++ (if symlink_ret =? 0 then
           [Slogf LOG_WARNING
              ("Unable to create symlink from " +:+ newFilename +:+ " to " +:+ filename tfa
                 +:+ "!" +:+ newline)]
         else [])).
Proof.
  cbv zeta. unfold _torflowaggregator_printToFile.
  destruct (redistribute (relayStats tfa)) as [stats totalBW]. simpl.
  by destruct (capAndPrint _ stats) as [stats' printed].
Qed.

Lemma append_walk {X Y} (g : X → list Y) (l : list X) (acc : list Y) :
  foldl (λ acc x, acc ++ g x) acc l = acc ++ (l ≫= g).
Proof.
  revert acc. induction l as [|x l IH]; intros acc; simpl.
  - by rewrite app_nil_r.
  - rewrite IH. by rewrite <- app_assoc.
Qed.

Lemma foldl_same {A X} (f g : A → X → A) (l : list X) (a : A) :
  (∀ a x, f a x = g a x) → foldl f a l = foldl g a l.
Proof.
  intros Hfg. revert a. induction l as [|x l IH]; intros a; simpl; [done|].
  by rewrite Hfg, IH.
Qed.

Lemma capAndPrint_eq (cap : Z) (table : gmap string TorFlowRelayStats) :
  (capAndPrint cap table).2
  = map_to_list table ≫=
      (λ kv, (if cap <? newBandwidth kv.2 then
                [Slogf LOG_MESSAGE
                   ("Capping bandwidth for extremely fast relay " +:+ nickname kv.2 +:+ newline)]
              else [])
             ++ [Fprintf (reportLine (capped cap kv.2))]).
Proof.
  unfold capAndPrint.
  set (F := λ (stats : gmap string TorFlowRelayStats) (kv : string * TorFlowRelayStats),
              <[kv.1 := capped cap kv.2]> stats).
  set (G := λ (events : list Event) (kv : string * TorFlowRelayStats),
              events
              ++ ((if cap <? newBandwidth kv.2 then
                     [Slogf LOG_MESSAGE
                        ("Capping bandwidth for extremely fast relay " +:+ nickname kv.2 +:+ newline)]
                   else [])
                  ++ [Fprintf (reportLine (capped cap kv.2))])).
  transitivity (foldl F table (map_to_list table), foldl G [] (map_to_list table)).2.
  - f_equal. rewrite <- (foldl_pair F G). apply foldl_same. intros [stats events] kv.
    unfold F, G, capped, reportLine. simpl.
    destruct (cap <? newBandwidth kv.2); simpl; by rewrite <- ?app_assoc.
  - simpl. unfold G. by rewrite (append_walk _ _ []).
Qed.

Lemma printed_capAndPrint (cap : Z) (table : gmap string TorFlowRelayStats) :
  printed (capAndPrint cap table).2
  = (λ kv : string * TorFlowRelayStats, reportLine (capped cap kv.2)) <$> map_to_list table.
Proof.
  rewrite capAndPrint_eq. unfold printed.
  induction (map_to_list table) as [|kv l IH]; [done|].
  rewrite fmap_cons, <- IH. csimpl. rewrite !omap_app. f_equal.
  by destruct (cap <? newBandwidth kv.2).
Qed.


Lemma capAndPrint_fmap (cap : Z) (table : gmap string TorFlowRelayStats) :
  (capAndPrint cap table).1 = capped cap <$> table.
Proof.
  apply map_eq. intros k. by rewrite capAndPrint_stats, lookup_fmap.
Qed.

Lemma redistribute_fmap (table : gmap string TorFlowRelayStats) :
  ∃ bandwidth : TorFlowRelayStats → Z,
    (redistribute table).1 = (λ current, set_newBandwidth current (bandwidth current)) <$> table.
Proof.
  destruct (redistribute_lookup table "") as [_ _].
  eexists. apply map_eq. intros k.
  destruct (redistribute_lookup table k) as [Hk _]. cbv zeta in Hk.
  rewrite Hk, lookup_fmap. done.
Qed.

Lemma printToFile_table (now_sec unlink_ret symlink_ret : Z) (tfa : TorFlowAggregator) :
  ∃ bandwidth : TorFlowRelayStats → Z,
    relayStats (_torflowaggregator_printToFile now_sec unlink_ret symlink_ret tfa).1
    = (λ current, set_newBandwidth current (bandwidth current)) <$> relayStats tfa.
Proof.
  rewrite printToFile_unfold. cbv zeta. cbn [fst relayStats].
  set (cap := CDouble.to_gint _).
  destruct (redistribute_fmap (relayStats tfa)) as [bandwidth Hred].
  exists (λ current, Z.min (bandwidth current) cap).
  rewrite capAndPrint_fmap, Hred, <- map_fmap_compose.
  apply map_fmap_ext. intros k current _. simpl. unfold capped. simpl.
  destruct (Z.ltb_spec cap (bandwidth current)); simpl.
  - by rewrite Z.min_r by lia.
  - by rewrite Z.min_l by lia.
Qed.

(** The third loop only logs and prints. *)
Lemma capAndPrint_body (cap : Z) (table : gmap string TorFlowRelayStats) :
  Forall (λ e, match e with Fprintf _ | Slogf _ _ => True | _ => False end)
    (capAndPrint cap table).2.
Proof.
  rewrite capAndPrint_eq. induction (map_to_list table) as [|kv l IH]; csimpl; [done|].
  apply Forall_app. split; [|done].
  destruct (cap <? newBandwidth kv.2); repeat constructor.
Qed.

Lemma written_from_body (path : string) (lines : list string) (body rest : list Event) :
  Forall (λ e, match e with Fprintf _ | Slogf _ _ => True | _ => False end) body →
  written_from (Some (path, lines)) (body ++ Fclose :: rest)
  = (path, lines ++ printed body) :: written_from None rest.
Proof.
  intros Hbody. revert lines. induction Hbody as [|e body He _ IH]; intros lines; simpl.
  - by rewrite app_nil_r.
  - destruct e as [level message| |text| | |]; try done; simpl.
    rewrite IH. unfold printed. simpl. by rewrite <- app_assoc.
Qed.

(** The rows of the report are the lines of the records as the publish
    leaves them. *)
Lemma printToFile_rows (cap : Z) (table : gmap string TorFlowRelayStats) :
  printed (capAndPrint cap table).2
  = reportLine <$> (map_to_list (capAndPrint cap table).1).*2.
Proof.
  rewrite printed_capAndPrint, capAndPrint_fmap, map_to_list_fmap, <- !list_fmap_compose.
  apply list_fmap_ext. by intros _ [k current] _.
Qed.

(** A publish leaves one file behind: the one it opens, holding the seconds
    of the clock and then what the third loop prints. *)
Lemma printToFile_written (now_sec unlink_ret symlink_ret : Z) (tfa : TorFlowAggregator) :
  let result := _torflowaggregator_printToFile now_sec unlink_ret symlink_ret tfa in
  written result.2
  = [(filename tfa +:+ "." +:+ pretty (version tfa),
      (pretty now_sec +:+ newline) :: (reportLine <$> (map_to_list (relayStats result.1)).*2))]
  ∧ printed result.2
    = (pretty now_sec +:+ newline) :: (reportLine <$> (map_to_list (relayStats result.1)).*2).
Proof.
  cbv zeta. rewrite printToFile_unfold. cbv zeta. cbn [fst snd relayStats].
  set (cap := CDouble.to_gint _). set (before := (redistribute (relayStats tfa)).1).
  rewrite <- printToFile_rows. split.
  - unfold written. cbn [app written_from fmap option_fmap option_map prod_map id].
    rewrite written_from_body by apply capAndPrint_body. f_equal.
    by destruct (unlink_ret =? 0), (symlink_ret =? 0).
  - unfold printed. cbn [app omap list_omap]. rewrite omap_app. f_equal.
    fold (printed (capAndPrint cap before).2).
    rewrite <- (app_nil_r (printed _)) at 2. f_equal.
    by destruct (unlink_ret =? 0), (symlink_ret =? 0).
Qed.

Lemma seeded_evenly_returns :
  seeded_evenly
  = Returns (mkAggregator 1 true "v3bw"
               (<["C" := mkStats "C" "C" 300 200 0 300 300]>
                  (<["B" := mkStats "B" "B" 200 200 0 200 200]>
                     (<["A" := mkStats "A" "A" 100 200 0 100 100]> ∅)))
               1%float 0 ∅).
Proof. reflexivity. Qed.





Lemma printToFile_version (now_sec unlink_ret symlink_ret : Z) (tfa : TorFlowAggregator) :
  version (_torflowaggregator_printToFile now_sec unlink_ret symlink_ret tfa).1
  = gint_wrap (version tfa + 1)
  ∧ filename (_torflowaggregator_printToFile now_sec unlink_ret symlink_ret tfa).1
    = filename tfa.
Proof. by rewrite printToFile_unfold. Qed.

Lemma publishes_version (answers : list (Z * Z * Z)) (tfa : TorFlowAggregator) :
  G_MININT <= version tfa →
  version tfa + Z.of_nat (length answers) <= G_MAXINT →
  version (publishes answers tfa) = version tfa + Z.of_nat (length answers).
Proof.
  unfold publishes. revert tfa.
  induction answers as [|a answers IH]; intros tfa Hlo Hhi; simpl in *; [lia|].
  destruct (printToFile_version a.1.1 a.1.2 a.2 tfa) as [Hv _].
  rewrite gint_wrap_small in Hv by (unfold is_gint; lia).
  rewrite IH; rewrite Hv; lia.
Qed.

(** C6: a new aggregator has version 0; a publish of an aggregator whose
    version is below the largest [gint] leaves the version one higher,
    whatever [unlink] and [symlink] answer; it opens exactly one file, named
    after the base name and the version before the increment, and what it
    writes goes into that file: the file it leaves holds the seconds of the
    clock and then one row per record of the stats table, each with the
    values the record has when the publish ends; so any run of publishes
    from a new aggregator ends with the number of publishes as version. *)
Theorem publish_version (now_sec unlink_ret symlink_ret : Z) (tfa : TorFlowAggregator)
    (basename : string) (workers : Z) (cap : float) (answers : list (Z * Z * Z)) :
  G_MININT <= version tfa < G_MAXINT →
  Z.of_nat (length answers) <= G_MAXINT →
  let result := _torflowaggregator_printToFile now_sec unlink_ret symlink_ret tfa in
  version result.1 = version tfa + 1
  ∧ head result.2 = Some (Fopen (filename tfa +:+ "." +:+ pretty (version tfa)))
  ∧ opened result.2 = [filename tfa +:+ "." +:+ pretty (version tfa)]
  ∧ (∃ rows,
       written result.2
       = [(filename tfa +:+ "." +:+ pretty (version tfa), (pretty now_sec +:+ newline) :: rows)]
       ∧ rows ≡ₚ reportLine <$> (map_to_list (relayStats result.1)).*2)
  ∧ filename result.1 = filename tfa
  ∧ version (torflowaggregator_new basename workers cap) = 0
  ∧ version (publishes answers (torflowaggregator_new basename workers cap))
    = Z.of_nat (length answers).
Proof.
  intros Hv Hn. cbv zeta.
  destruct (printToFile_written now_sec unlink_ret symlink_ret tfa) as [Hwritten _].
  cbv zeta in Hwritten.
  destruct (printToFile_version now_sec unlink_ret symlink_ret tfa) as [-> ->].
  rewrite gint_wrap_small by (unfold is_gint; lia).
  split; [done|]. split; [by rewrite printToFile_unfold|]. split.
  - rewrite printToFile_unfold. cbv zeta. simpl. unfold opened. rewrite !omap_app.
    destruct (capAndPrint_events
      (CDouble.to_gint (PrimFloat.mul (CDouble.of_Z (redistribute (relayStats tfa)).2) (nodeCap tfa)))
      (redistribute (relayStats tfa)).1) as (_ & Hopened & _).
    unfold opened in Hopened. rewrite Hopened.
    by destruct (unlink_ret =? 0), (symlink_ret =? 0).
  - split; [by eexists|]. split; [done|]. split; [done|].
    rewrite publishes_version; simpl; unfold G_MININT; lia.
Qed.

Lemma publish_version_witness :
  ∃ tfa,
    seeded_evenly = Returns tfa
    ∧ version (_torflowaggregator_printToFile 0 (-1) (-1) tfa).1 = 1
    ∧ opened (_torflowaggregator_printToFile 0 (-1) (-1) tfa).2 = ["v3bw.0"]
    ∧ (∃ rows,
         written (_torflowaggregator_printToFile 0 (-1) (-1) tfa).2
         = [("v3bw.0", ("0" +:+ newline) :: rows)]
         ∧ length rows = 3%nat)
    ∧ version (publishes [(0, 0, 0); (1, -1, 0); (2, -1, -1)]
                 (torflowaggregator_new "v3bw" 1 1%float))
      = 3.
Proof.
  pose (tfa := mkAggregator 1 true "v3bw"
                 (<["C" := mkStats "C" "C" 300 200 0 300 300]>
                    (<["B" := mkStats "B" "B" 200 200 0 200 200]>
                       (<["A" := mkStats "A" "A" 100 200 0 100 100]> ∅)))
                 1%float 0 ∅).
  exists tfa. split; [exact seeded_evenly_returns|].
  destruct (publish_version 0 (-1) (-1) tfa "v3bw" 1 1%float
              [(0, 0, 0); (1, -1, 0); (2, -1, -1)])
    as (H1 & _ & H2 & (rows & H3 & Hrows) & _ & _ & H4).
  { vm_compute. split; [discriminate|reflexivity]. }
  { vm_compute. discriminate. }
  split; [exact H1|]. split; [exact H2|]. split; [|exact H4].
  exists rows. split; [exact H3|].
  rewrite (Permutation_length Hrows). vm_compute. reflexivity.
Defined.

(** C7, the code at the failing input: the warnings of a publish are
    "Unable to remove symlink" exactly when [unlink] answers 0 and "Unable
    to create symlink" exactly when [symlink] answers 0, that is when the
    calls succeed: two warnings when both succeed, none when both fail.
    Either way the publish goes on: each call is made once, and the
    aggregator it leaves does not depend on the answers. *)
Theorem publish_warnings (now_sec unlink_ret symlink_ret : Z) (tfa : TorFlowAggregator) :
  let newFilename := filename tfa +:+ "." +:+ pretty (version tfa) in
  let removal := "Unable to remove symlink to " +:+ filename tfa +:+ "!" +:+ newline in
  let creation :=
    "Unable to create symlink from " +:+ newFilename +:+ " to " +:+ filename tfa
      +:+ "!" +:+ newline in
  warnings (_torflowaggregator_printToFile now_sec unlink_ret symlink_ret tfa).2
  = (if unlink_ret =? 0 then [removal] else []) ++ (if symlink_ret =? 0 then [creation] else [])
  ∧ warnings (_torflowaggregator_printToFile now_sec 0 0 tfa).2 = [removal; creation]
  ∧ warnings (_torflowaggregator_printToFile now_sec (-1) (-1) tfa).2 = []
  ∧ attempts (_torflowaggregator_printToFile now_sec unlink_ret symlink_ret tfa).2
    = [Unlink (filename tfa); Symlink newFilename (filename tfa)]
  ∧ (_torflowaggregator_printToFile now_sec unlink_ret symlink_ret tfa).1
    = (_torflowaggregator_printToFile now_sec 0 0 tfa).1.
Proof.
  cbv zeta.
  destruct (capAndPrint_events
    (CDouble.to_gint (PrimFloat.mul (CDouble.of_Z (redistribute (relayStats tfa)).2) (nodeCap tfa)))
    (redistribute (relayStats tfa)).1) as (Hwarn & _ & Hcalls).
  assert (∀ u s,
    warnings (_torflowaggregator_printToFile now_sec u s tfa).2
    = (if u =? 0 then ["Unable to remove symlink to " +:+ filename tfa +:+ "!" +:+ newline] else [])
      ++ (if s =? 0 then
            ["Unable to create symlink from " +:+ (filename tfa +:+ "." +:+ pretty (version tfa))
               +:+ " to " +:+ filename tfa +:+ "!" +:+ newline]
          else [])) as H.
  { intros u s. rewrite printToFile_unfold. cbv zeta. simpl.
    unfold warnings in *. rewrite !omap_app, Hwarn.
    by destruct (u =? 0), (s =? 0). }
  split; [apply H|]. split; [apply H|]. split; [apply H|]. split.
  - rewrite printToFile_unfold. cbv zeta. simpl.
    unfold attempts in *. rewrite !omap_app, Hcalls.
    by destruct (unlink_ret =? 0), (symlink_ret =? 0).
  - by rewrite !printToFile_unfold.
Qed.

Lemma Zsum_perm (l1 l2 : list Z) : l1 ≡ₚ l2 → Zsum l1 = Zsum l2.
Proof.
  unfold Zsum. induction 1 as [|x l1 l2 _ IH|x y l|l1 l2 l3 _ IH1 _ IH2]; simpl; lia.
Qed.



(** A report that brings no relay is a publish and nothing else. *)
Lemma reportMeasurements_nothing (mean : TorFlowRelay → Z) (filtered : TorFlowRelay → Z → Z)
    (threshold now_sec unlink_ret symlink_ret : Z) (tfa : TorFlowAggregator)
    (sliceSize currSlice : Z) :
  torflowaggregator_reportMeasurements mean filtered threshold
    now_sec unlink_ret symlink_ret tfa [] sliceSize currSlice
  = Returns (_torflowaggregator_printToFile now_sec unlink_ret symlink_ret tfa).
Proof.
  unfold torflowaggregator_reportMeasurements. by rewrite drop_nil, take_nil.
Qed.

Lemma fileStats_unfold (tfa : TorFlowAggregator) (tfrs : TorFlowRelayStats) :
  fileStats tfa tfrs
  = if decide (identity tfrs ∈ relayStats_released tfa) then Undefined
    else Returns
           (mkAggregator (numWorkers tfa) (gotInitial tfa) (filename tfa)
              (<[identity tfrs := tfrs]> (relayStats tfa)) (nodeCap tfa) (version tfa)
              (if decide (is_Some (relayStats tfa !! identity tfrs))
               then {[identity tfrs]} ∪ relayStats_released tfa
               else relayStats_released tfa)).
Proof.
  unfold fileStats, key_compared, g_hash_table_insert, _torflowaggregator_torFlowRelayStatsFree.
  destruct (decide (_ ∈ _)); [done|]. cbn [mbind Outcome_bind].
  destruct (relayStats tfa !! identity tfrs) eqn:Hold.
  - by rewrite decide_True by eauto.
  - rewrite decide_False; [done|]. by intros [? ?].
Qed.




(** * Further properties *)

Import Runs.

(** ** The helpers of the selection *)

(** X1: whatever [rand()] returns, the index drawn for a queue of
    [numElements] elements is 0 when the queue is empty and otherwise lies
    in [0, numElements): a position of the queue, never one past its end. *)
Theorem randomIndex_in_bounds (rInt numElements : Z) :
  (numElements <= 0 → _torflowslice_randomIndex rInt numElements = 0)
  ∧ (0 < numElements → 0 <= _torflowslice_randomIndex rInt numElements < numElements).
Proof.
  split.
  - intros Hn. unfold _torflowslice_randomIndex. by destruct (Z.leb_spec numElements 0); [|lia].
  - apply randomIndex_range.
Qed.

Lemma randomIndex_in_bounds_witness :
  _torflowslice_randomIndex RAND_MAX 5 = 4
  ∧ 0 <= _torflowslice_randomIndex RAND_MAX 5 < 5.
Proof.
  split; [vm_compute; reflexivity|].
  apply (proj2 (randomIndex_in_bounds RAND_MAX 5)). reflexivity.
Defined.

Lemma getCandidates_filter (table : gmap string Z) :
  _torflowslice_getCandidates table
  = (filter (λ kv : string * Z, (kv.2 =? minProbes table) = true) (map_to_list table)).*1.
Proof.
  unfold _torflowslice_getCandidates. fold (minProbes table).
  by rewrite (push_tail_walk (λ kv, GPOINTER_TO_UINT kv.2 =? minProbes table)).
Qed.

(** X2: the candidates of a table of [guint] counts are exactly its least
    probed relays, each listed once: an identity is a candidate if and only
    if it is a key whose count no other count of the table is below; the
    queue is empty only for the empty table. *)
Theorem getCandidates_least_probed (table : gmap string Z) :
  map_Forall (λ _ v, is_guint v) table →
  NoDup (_torflowslice_getCandidates table)
  ∧ (∀ k, k ∈ _torflowslice_getCandidates table
          ↔ ∃ v, table !! k = Some v ∧ ∀ k' v', table !! k' = Some v' → v <= v')
  ∧ (_torflowslice_getCandidates table = [] ↔ table = ∅).
Proof.
  intros Hwf. split; [|split].
  - rewrite getCandidates_filter.
    eapply sublist_NoDup; [apply (NoDup_fst_map_to_list table)|].
    apply fmap_sublist, sublist_filter.
  - intros k. rewrite getCandidates_elem. split.
    + intros Hk. exists (minProbes table). split; [done|]. intros k' v'. apply minProbes_le.
    + intros (v & Hk & Hleast).
      destruct (minProbes_attained table) as (k0 & Hk0); [by intros ->|done|].
      pose proof (Hleast k0 _ Hk0). pose proof (minProbes_le table k v Hk).
      replace (minProbes table) with v by lia. done.
  - split.
    + intros Hnil. destruct (decide (table = ∅)) as [|Hne]; [done|].
      by destruct (getCandidates_nonempty table Hne Hwf).
    + intros ->. apply getCandidates_empty.
Qed.

Lemma getCandidates_least_probed_witness :
  map_Forall (λ _ v, is_guint v) (<["b" := 2]> (<["a" := 1]> (<["c" := 1]> ∅)) : gmap string Z)
  ∧ NoDup (_torflowslice_getCandidates (<["b" := 2]> (<["a" := 1]> (<["c" := 1]> ∅))))
  ∧ length (_torflowslice_getCandidates (<["b" := 2]> (<["a" := 1]> (<["c" := 1]> ∅)))) = 2%nat.
Proof.
  assert (map_Forall (λ _ v, is_guint v)
            (<["b" := 2]> (<["a" := 1]> (<["c" := 1]> ∅)) : gmap string Z)) as Hwf.
  { assert (∀ z, 0 <= z <= 2 → is_guint z) as Hsmall.
    { intros z Hz. unfold is_guint, G_MAXUINT. lia. }
    repeat apply map_Forall_insert_2; try apply map_Forall_empty; apply Hsmall; lia. }
  split; [exact Hwf|]. split; [|vm_compute; reflexivity].
  exact (proj1 (getCandidates_least_probed _ Hwf)).
Defined.

(** X3: in the table that [_torflowslice_mergeTables] builds, a key of the
    second table has the second table's value, any other key of the first
    table has the first table's value, and the remaining keys are those of
    the destination, unchanged: on a key that sits in both tables the
    second one wins. The keys the destination displaces, and so releases,
    on the way are those of the second table that the first table or the
    destination held, and those of the first table that the destination
    held. *)
Theorem mergeTables_lookup (dest one two : gmap string Z) (k : string) :
  (_torflowslice_mergeTables dest one two).1 !! k
  = match two !! k with
    | Some v => Some v
    | None => match one !! k with Some v => Some v | None => dest !! k end
    end
  ∧ (_torflowslice_mergeTables dest one two).2
    = (dom two ∩ (dom one ∪ dom dest)) ∪ (dom one ∩ dom dest).
Proof.
  rewrite mergeTables_eq. cbn [fst snd]. split; [|done].
  rewrite !replace_walk_lookup by apply NoDup_fst_map_to_list.
  by rewrite !list_to_map_to_list.
Qed.

(** ** Building and measuring a slice *)


Lemma size_insert_fresh (table : gmap string Z) (k : string) (v : Z) :
  Z.of_nat (size (<[k := v]> table))
  = Z.of_nat (size table) + (if decide (is_Some (table !! k)) then 0 else 1).
Proof.
  destruct (table !! k) as [w|] eqn:Hk.
  - rewrite decide_True by eauto. rewrite map_size_insert_Some by eauto. lia.
  - rewrite decide_False by (by intros [? ?]). rewrite map_size_insert_None by done. lia.
Qed.

(** X5: [torflowslice_getLength] is 0 on a new slice; when
    [torflowslice_addRelay] returns, adding an authority has left it as it
    was; adding an exit or an entry has raised it by one (in [guint]
    arithmetic) when its partition did not hold the identity, and has left
    it as it was when the partition did: the length counts the entries and
    exits counters, an identity filed under both roles twice. *)
Theorem getLength_addRelay (slice : TorFlowSlice) (relay : TorFlowRelay)
    (sliceID : Z) (pct : float) (numProbes : Z) :
  let id := torflowrelay_getIdentity relay in
  let partition := if torflowrelay_getIsExit relay then exits slice else entries slice in
  torflowslice_getLength (torflowslice_new sliceID pct numProbes) = 0
  ∧ ∀ after,
      torflowslice_addRelay slice relay false = Returns after →
      (torflowrelay_getIsAuth relay = true →
       torflowslice_getLength after = torflowslice_getLength slice)
      ∧ (torflowrelay_getIsAuth relay = false → is_Some (partition !! id) →
         torflowslice_getLength after = torflowslice_getLength slice)
      ∧ (torflowrelay_getIsAuth relay = false → partition !! id = None →
         torflowslice_getLength after = guint_wrap (torflowslice_getLength slice + 1)).
Proof.
  cbv zeta. unfold torflowslice_getLength, g_hash_table_size.
  split; [done|]. intros after. rewrite addRelay_unfold. cbv zeta.
  destruct (torflowrelay_getIsAuth relay).
  { intros [= <-]. by split_and!. }
  destruct (torflowrelay_getIsExit relay);
    (destruct (decide (_ ∈ _)); [done|]); intros [= <-]; simpl;
    (split; [done|]); split; intros _ Hk.
  - rewrite size_insert_fresh, decide_True by done; f_equal; lia.
  - rewrite guint_wrap_add_l.
    rewrite size_insert_fresh, decide_False by (rewrite Hk; by intros [? ?]); f_equal; lia.
  - rewrite size_insert_fresh, decide_True by done; f_equal; lia.
  - rewrite guint_wrap_add_l.
    rewrite size_insert_fresh, decide_False by (rewrite Hk; by intros [? ?]); f_equal; lia.
Qed.

Lemma getLength_addRelay_witness :
  ∃ slice after,
    fresh_slice = Returns slice
    ∧ torflowslice_addRelay slice (relay "b" false true) false = Returns after
    ∧ torflowslice_getLength slice = 1
    ∧ torflowslice_getLength after = 2.
Proof.
  pose (slice := mkSlice 0 0%float 1 0 None false (<["a" := 0]> ∅) ∅ (<["x" := 0]> ∅) ∅ ∅).
  pose (after := set_exits slice (<["b" := 0]> ∅)).
  assert (torflowslice_addRelay slice (relay "b" false true) false = Returns after) as Hadd
    by reflexivity.
  exists slice, after. split; [exact fresh_slice_returns|]. split; [exact Hadd|].
  split; [vm_compute; reflexivity|].
  apply (proj2 (proj2 (proj2
    (getLength_addRelay slice (relay "b" false true) 0 0%float 1) after Hadd))); reflexivity.
Defined.

Lemma Zsum_zero_iff (l : list Z) :
  Forall (λ z, 0 <= z) l → Zsum l = 0 ↔ Forall (λ z, z = 0) l.
Proof.
  unfold Zsum. induction 1 as [|z l Hz Hl IH]; simpl.
  - split; [constructor|done].
  - assert (0 <= foldr Z.add 0 l) as Hsum.
    { clear IH. induction Hl; simpl; lia. }
    split.
    + intros Hzero. constructor; [lia|]. apply IH. lia.
    + intros Hall. inversion Hall as [|? ? Hz0 Hl0]; subst. apply IH in Hl0. lia.
Qed.

Lemma unmetProbes_zero_iff (target : Z) (table : gmap string Z) :
  unmetProbes target table = 0 ↔ map_Forall (λ _ v, target <= v) table.
Proof.
  unfold unmetProbes. rewrite Zsum_zero_iff.
  - rewrite Forall_fmap, map_Forall_to_list. apply Forall_proper; [|done].
    intros [k v]. simpl. lia.
  - rewrite Forall_fmap. apply Forall_forall. intros [k v] _. simpl. lia.
Qed.

(** X6: [torflowslice_getNumProbesRemaining] is a query: it overwrites the
    running total of the slice and nothing else, and asking again gives the
    same answer. As long as the sum of the unmet counts fits a [guint], the
    answer is 0 exactly when every entry and every exit has reached the
    probe target; the authorities do not matter. *)
Theorem getNumProbesRemaining_query (slice : TorFlowSlice) :
  let result := torflowslice_getNumProbesRemaining slice in
  result.2 = set_totalProbesRemaining slice result.1
  ∧ torflowslice_getNumProbesRemaining result.2 = result
  ∧ (unmetProbes (numProbesPerRelay slice) (entries slice)
     + unmetProbes (numProbesPerRelay slice) (exits slice) <= G_MAXUINT →
     (result.1 = 0
      ↔ map_Forall (λ _ v, numProbesPerRelay slice <= v) (entries slice)
        ∧ map_Forall (λ _ v, numProbesPerRelay slice <= v) (exits slice))).
Proof.
  cbv zeta. rewrite !getNumProbesRemaining_eq. cbv zeta. simpl.
  split; [done|]. split; [done|]. intros Hfit.
  pose proof (unmetProbes_nonneg (numProbesPerRelay slice) (entries slice)).
  pose proof (unmetProbes_nonneg (numProbesPerRelay slice) (exits slice)).
  rewrite guint_wrap_small by (unfold is_guint; lia).
  rewrite <- !unmetProbes_zero_iff. lia.
Qed.

Lemma getNumProbesRemaining_query_witness :
  ∃ slice,
    fresh_slice = Returns slice
    ∧ unmetProbes (numProbesPerRelay slice) (entries slice)
      + unmetProbes (numProbesPerRelay slice) (exits slice) <= G_MAXUINT
    ∧ ((torflowslice_getNumProbesRemaining slice).1 = 0
       ↔ map_Forall (λ _ v, numProbesPerRelay slice <= v) (entries slice)
         ∧ map_Forall (λ _ v, numProbesPerRelay slice <= v) (exits slice)).
Proof.
  eexists. split; [exact fresh_slice_returns|].
  match goal with |- ?fits ∧ _ => assert fits as H by (vm_compute; discriminate) end.
  split; [exact H|].
  exact (proj2 (proj2 (getNumProbesRemaining_query _)) H).
Defined.

(** ** What a selection does to the slice *)

(** The three ways a call returns. *)
Lemma chooseRelayPair_cases (randTarget randAuth : Z) (slice : TorFlowSlice)
    (result : ChooseResult) :
  let remaining := (torflowslice_getNumProbesRemaining slice).1 in
  let slice1 := (torflowslice_getNumProbesRemaining slice).2 in
  let displaced := dom (entries slice) ∩ dom (exits slice) in
  torflowslice_chooseRelayPair randTarget randAuth slice = Returns result →
  (remaining = 0 ∧ chosen result = None ∧ slice_after result = slice1 ∧ logged result = [])
  ∨ (remaining ≠ 0 ∧ keys_allocated slice ∧ chosen result = None
     ∧ slice_after result = set_released slice1 displaced ∅
     ∧ logged result = [LOG_ERROR])
  ∨ (∃ target auth,
       remaining ≠ 0 ∧ keys_allocated slice ∧ (target ∉ displaced)
       ∧ targets slice !! target = Some (minProbes (targets slice))
       ∧ auths slice !! auth = Some (minProbes (auths slice))
       ∧ chosen result
         = Some (mkPair target auth (negb (g_hash_table_lookup (entries slice) target =? NULL)))
       ∧ logged result = [LOG_INFO]
       ∧ let after :=
           if negb (g_hash_table_lookup (entries slice) target =? NULL) then
             set_entries slice1
               (<[target := guint_wrap (g_hash_table_lookup (entries slice) target + 1)]>
                  (entries slice))
           else
             set_exits slice1
               (<[target := guint_wrap (g_hash_table_lookup (exits slice) target + 1)]>
                  (exits slice)) in
         slice_after result = set_released after (dom (entries after)) (dom (exits after))).
Proof.
  cbv zeta. rewrite chooseRelayPair_unfold, getNumProbesRemaining_eq. cbv zeta. simpl.
  set (remaining := guint_wrap _).
  pose proof (guint_wrap_range
    (unmetProbes (numProbesPerRelay slice) (entries slice)
     + unmetProbes (numProbesPerRelay slice) (exits slice))) as Hrange.
  fold remaining in Hrange. unfold is_guint in Hrange.
  destruct (Z.leb_spec remaining 0) as [Hzero|Hpos].
  { intros [= <-]. left. split; [lia|done]. }
  assert (remaining ≠ 0) as Hne by lia.
  destruct (decide (keys_allocated slice)) as [Hlive|]; [|done].
  destruct (g_queue_peek_nth (_torflowslice_getCandidates (targets slice)) _)
    as [target|] eqn:Htarget; [|intros [= <-]; by right; left].
  destruct (g_queue_peek_nth (_torflowslice_getCandidates (auths slice)) _)
    as [auth|] eqn:Hauth; [|intros [= <-]; by right; left].
  destruct (decide (target ∈ _)) as [|Hfresh]; [done|].
  intros [= <-]. right. right. exists target, auth.
  apply peek_nth_elem, getCandidates_elem in Htarget.
  apply peek_nth_elem, getCandidates_elem in Hauth.
  split_and!; try done.
  by destruct (negb (g_hash_table_lookup (entries slice) target =? NULL)).
Qed.

Lemma set_released_same (slice : TorFlowSlice) :
  set_released slice (entries_released slice) (exits_released slice) = slice.
Proof. by destruct slice. Qed.

(** X7: when [torflowslice_chooseRelayPair] answers FALSE, no partition, no
    counter and not the cache has changed; the call has logged nothing when
    the remaining count was 0, and then the slice is as
    [torflowslice_getNumProbesRemaining] leaves it; it has logged one error
    otherwise, and then the merge has already run: the keys of the entries
    partition whose identity is also filed as an exit have been released,
    and nothing else has changed, so that a slice on which no identity is
    filed twice is as [torflowslice_getNumProbesRemaining] leaves it. *)
Theorem chooseRelayPair_failure_frame (randTarget randAuth : Z) (slice : TorFlowSlice)
    (result : ChooseResult) :
  torflowslice_chooseRelayPair randTarget randAuth slice = Returns result →
  chosen result = None →
  let remaining := (torflowslice_getNumProbesRemaining slice).1 in
  let counted := (torflowslice_getNumProbesRemaining slice).2 in
  entries (slice_after result) = entries slice
  ∧ exits (slice_after result) = exits slice
  ∧ auths (slice_after result) = auths slice
  ∧ relayIDSearch (slice_after result) = relayIDSearch slice
  ∧ relayIDFound (slice_after result) = relayIDFound slice
  ∧ logged result = (if remaining =? 0 then [] else [LOG_ERROR])
  ∧ (if remaining =? 0 then slice_after result = counted
     else keys_allocated slice
          ∧ slice_after result
            = set_released counted (dom (entries slice) ∩ dom (exits slice)) ∅)
  ∧ (entries slice ##ₘ exits slice → slice_after result = counted).
Proof.
  cbv zeta. intros Hresult Hnone.
  destruct (chooseRelayPair_cases randTarget randAuth slice result Hresult)
    as [(Hzero & _ & -> & ->)|[(Hne & Hlive & _ & -> & ->)|(t & a & _ & _ & _ & _ & _ & Hsome & _)]];
    [| |congruence].
  - rewrite Hzero. rewrite getNumProbesRemaining_eq. cbv zeta. simpl. by split_and!.
  - destruct (Z.eqb_spec (torflowslice_getNumProbesRemaining slice).1 0) as [|_]; [done|].
    rewrite getNumProbesRemaining_eq. cbv zeta. simpl. split_and!; try done.
    intros Hdisjoint%map_disjoint_dom. destruct Hlive as [He Hx].
    replace (dom (entries slice) ∩ dom (exits slice)) with (∅ : gset string) by set_solver.
    rewrite <- (set_released_same (set_totalProbesRemaining slice _)) at 2. simpl.
    by rewrite He, Hx.
Qed.

Lemma slice_without_authority_returns :
  slice_without_authority
  = Returns (mkSlice 0 0%float 1 0 None false (<["a" := 0]> ∅) ∅ ∅ ∅ ∅).
Proof. reflexivity. Qed.

Lemma chooseRelayPair_failure_frame_witness :
  ∃ slice result,
    slice_without_authority = Returns slice
    ∧ torflowslice_chooseRelayPair 0 0 slice = Returns result
    ∧ chosen result = None
    ∧ entries (slice_after result) = entries slice
    ∧ logged result = [LOG_ERROR].
Proof.
  pose (slice := mkSlice 0 0%float 1 0 None false (<["a" := 0]> ∅) ∅ ∅ ∅ ∅).
  pose (result := mkChoose None (set_totalProbesRemaining slice 1) [LOG_ERROR]).
  assert (torflowslice_chooseRelayPair 0 0 slice = Returns result) as Hresult
    by (vm_compute; reflexivity).
  destruct (chooseRelayPair_failure_frame 0 0 slice result Hresult eq_refl)
    as (He & _ & _ & _ & _ & Hlog & _).
  exists slice, result. split; [exact slice_without_authority_returns|].
  split; [exact Hresult|]. split; [reflexivity|]. split; [exact He|exact Hlog].
Defined.

Lemma lookup_nonnull (table : gmap string Z) (k : string) :
  g_hash_table_lookup table k ≠ NULL → is_Some (table !! k).
Proof. unfold g_hash_table_lookup. destruct (table !! k); [eauto|done]. Qed.

(** X8: when [torflowslice_chooseRelayPair] succeeds, it logs one info line;
    the authority it names is a key of the authorities partition whose
    count no other authority's count is below, and that partition is left
    as it was; the target was a key of the entries or of the exits
    partition; by content the entries partition keeps its keys and the
    exits partition keeps its keys and gains at most the target; the cache
    is untouched. The key strings were all allocated before the call, and
    all of them, in both partitions, have been released when it returns:
    the identity handed back for the target is a pointer to a released
    string, the one handed back for the authority is a live string; one
    goes out as the entry and the other as the exit. *)
Theorem chooseRelayPair_success_frame (randTarget randAuth : Z) (slice : TorFlowSlice)
    (result : ChooseResult) (pair : RelayPair) :
  torflowslice_chooseRelayPair randTarget randAuth slice = Returns result →
  chosen result = Some pair →
  logged result = [LOG_INFO]
  ∧ (∃ count, auths slice !! authID pair = Some count
              ∧ ∀ k v, auths slice !! k = Some v → count <= v)
  ∧ auths (slice_after result) = auths slice
  ∧ (is_Some (entries slice !! targetID pair) ∨ is_Some (exits slice !! targetID pair))
  ∧ dom (entries (slice_after result)) = dom (entries slice)
  ∧ dom (exits (slice_after result))
    = (if measureEntry pair then dom (exits slice) else {[targetID pair]} ∪ dom (exits slice))
  ∧ relayIDSearch (slice_after result) = relayIDSearch slice
  ∧ relayIDFound (slice_after result) = relayIDFound slice
  ∧ keys_allocated slice
  ∧ entries_released (slice_after result) = dom (entries (slice_after result))
  ∧ exits_released (slice_after result) = dom (exits (slice_after result))
  ∧ (targetID pair ∈ entries_released (slice_after result)
     ∨ targetID pair ∈ exits_released (slice_after result))
  ∧ ((entryRelayIdentity pair = Dangling (targetID pair)
      ∧ exitRelayIdentity pair = Live (authID pair))
     ∨ (entryRelayIdentity pair = Live (authID pair)
        ∧ exitRelayIdentity pair = Dangling (targetID pair))).
Proof.
  intros Hresult Hsome.
  destruct (chooseRelayPair_cases randTarget randAuth slice result Hresult)
    as [(_ & Hnone & _)|[(_ & _ & Hnone & _)|(t & a & _ & Hlive & _ & Ht & Ha & Hpair & -> & ->)]];
    [congruence|congruence|].
  rewrite Hsome in Hpair. injection Hpair as ->.
  rewrite getNumProbesRemaining_eq. cbv zeta. simpl.
  assert (is_Some (entries slice !! t) ∨ is_Some (exits slice !! t)) as Hkey.
  { rewrite targets_lookup in Ht. destruct (exits slice !! t); [right|left]; eauto. }
  split; [done|]. split.
  { exists (minProbes (auths slice)). split; [done|]. intros k v. apply minProbes_le. }
  unfold entryRelayIdentity, exitRelayIdentity. simpl.
  destruct (Z.eqb_spec (g_hash_table_lookup (entries slice) t) NULL) as [Hnull|Hnn]; simpl.
  - split_and!; try done; [apply dom_insert_L| |by right].
    right. rewrite dom_insert_L. set_solver.
  - assert (dom (<[t := guint_wrap (g_hash_table_lookup (entries slice) t + 1)]> (entries slice))
            = dom (entries slice)) as Hdom.
    { rewrite dom_insert_L. apply lookup_nonnull, elem_of_dom in Hnn.
      by apply subseteq_union_1_L, singleton_subseteq_l. }
    split_and!; try done; [|by left].
    left. rewrite Hdom. by apply elem_of_dom, lookup_nonnull.
Qed.

Lemma chooseRelayPair_success_frame_witness :
  ∃ slice result,
    fresh_slice = Returns slice
    ∧ torflowslice_chooseRelayPair 0 0 slice = Returns result
    ∧ chosen result = Some (mkPair "a" "x" false)
    ∧ logged result = [LOG_INFO]
    ∧ auths (slice_after result) = auths slice
    ∧ exits_released (slice_after result) = dom (exits (slice_after result)).
Proof.
  pose (slice := mkSlice 0 0%float 1 0 None false (<["a" := 0]> ∅) ∅ (<["x" := 0]> ∅) ∅ ∅).
  pose (result :=
          mkChoose (Some (mkPair "a" "x" false))
            (mkSlice 0 0%float 1 1 None false (<["a" := 0]> ∅) (<["a" := 1]> ∅) (<["x" := 0]> ∅)
               {["a"]} {["a"]})
            [LOG_INFO]).
  assert (torflowslice_chooseRelayPair 0 0 slice = Returns result) as Hresult
    by (vm_compute; reflexivity).
  destruct (chooseRelayPair_success_frame 0 0 slice result _ Hresult eq_refl)
    as (Hlog & _ & Hauths & _ & _ & _ & _ & _ & _ & _ & Hreleased & _).
  exists slice, result. split; [exact fresh_slice_returns|]. split; [exact Hresult|].
  split; [reflexivity|]. split; [exact Hlog|]. split; [exact Hauths|exact Hreleased].
Defined.

(** X9: a successful [torflowslice_chooseRelayPair] leaves
    [torflowslice_getLength] as it was when the target is counted as an
    entry or already had a counter in the exits partition, and raises it by
    one (in [guint] arithmetic) when the target had none, which is what
    happens to an entry picked while its count is 0. *)
Theorem getLength_chooseRelayPair (randTarget randAuth : Z) (slice : TorFlowSlice)
    (result : ChooseResult) (pair : RelayPair) :
  torflowslice_chooseRelayPair randTarget randAuth slice = Returns result →
  chosen result = Some pair →
  torflowslice_getLength (slice_after result)
  = if measureEntry pair || bool_decide (is_Some (exits slice !! targetID pair))
    then torflowslice_getLength slice
    else guint_wrap (torflowslice_getLength slice + 1).
Proof.
  intros Hresult Hsome.
  destruct (chooseRelayPair_cases randTarget randAuth slice result Hresult)
    as [(_ & Hnone & _)|[(_ & _ & Hnone & _)|(t & a & _ & _ & _ & Ht & Ha & Hpair & _ & ->)]];
    [congruence|congruence|].
  rewrite Hsome in Hpair. injection Hpair as ->.
  rewrite getNumProbesRemaining_eq. cbv zeta. simpl.
  unfold torflowslice_getLength, g_hash_table_size.
  destruct (Z.eqb_spec (g_hash_table_lookup (entries slice) t) NULL) as [Hnull|Hnn]; simpl.
  - rewrite size_insert_fresh. case_bool_decide; [rewrite decide_True by done|rewrite decide_False by done].
    + f_equal. lia.
    + rewrite guint_wrap_add_l. f_equal. lia.
  - rewrite size_insert_fresh, decide_True by (by apply lookup_nonnull). f_equal. lia.
Qed.

Lemma getLength_chooseRelayPair_witness :
  ∃ slice result,
    fresh_slice = Returns slice
    ∧ torflowslice_chooseRelayPair 0 0 slice = Returns result
    ∧ chosen result = Some (mkPair "a" "x" false)
    ∧ torflowslice_getLength slice = 1
    ∧ torflowslice_getLength (slice_after result) = 2.
Proof.
  pose (slice := mkSlice 0 0%float 1 0 None false (<["a" := 0]> ∅) ∅ (<["x" := 0]> ∅) ∅ ∅).
  pose (result :=
          mkChoose (Some (mkPair "a" "x" false))
            (mkSlice 0 0%float 1 1 None false (<["a" := 0]> ∅) (<["a" := 1]> ∅) (<["x" := 0]> ∅)
               {["a"]} {["a"]})
            [LOG_INFO]).
  assert (torflowslice_chooseRelayPair 0 0 slice = Returns result) as Hresult
    by (vm_compute; reflexivity).
  exists slice, result. split; [exact fresh_slice_returns|]. split; [exact Hresult|].
  split; [reflexivity|]. split; [vm_compute; reflexivity|].
  exact (getLength_chooseRelayPair 0 0 slice result _ Hresult eq_refl).
Defined.

(** ** Slices without entries *)

Lemma unmetProbes_insert_fresh (target : Z) (table : gmap string Z) (k : string) (v : Z) :
  table !! k = None →
  unmetProbes target (<[k := v]> table) = Z.max 0 (target - v) + unmetProbes target table.
Proof.
  intros Hk. unfold unmetProbes.
  rewrite (Zsum_perm _ ((λ kv, Z.max 0 (target - kv.2)) <$> (k, v) :: map_to_list table)).
  - done.
  - apply fmap_Permutation. by apply map_to_list_insert.
Qed.

Lemma unmetProbes_insert (target : Z) (table : gmap string Z) (k : string) (old v : Z) :
  table !! k = Some old →
  unmetProbes target (<[k := v]> table)
  = unmetProbes target table - Z.max 0 (target - old) + Z.max 0 (target - v).
Proof.
  intros Hk.
  rewrite <- (insert_delete_eq table k v).
  rewrite <- (insert_delete_id table k old Hk) at 2.
  rewrite !unmetProbes_insert_fresh by apply lookup_delete_eq. lia.
Qed.

Lemma targets_without_entries (slice : TorFlowSlice) :
  entries slice = ∅ → targets slice = exits slice.
Proof.
  intros He. apply map_eq. intros k. rewrite targets_lookup, He, lookup_empty.
  by destruct (exits slice !! k).
Qed.

Lemma exits_only_step (randTarget randAuth : Z) (slice : TorFlowSlice)
    (result : ChooseResult) (pair : RelayPair) :
  entries slice = ∅ → counts_are_guint slice → is_guint (numProbesPerRelay slice) →
  unmetProbes (numProbesPerRelay slice) (exits slice) <= G_MAXUINT →
  torflowslice_chooseRelayPair randTarget randAuth slice = Returns result →
  chosen result = Some pair →
  let after := slice_after result in
  measureEntry pair = false
  ∧ (∃ count, exits slice !! targetID pair = Some count
              ∧ count < numProbesPerRelay slice
              ∧ (∀ k v, exits slice !! k = Some v → count <= v)
              ∧ exits after = <[targetID pair := count + 1]> (exits slice))
  ∧ entries after = ∅
  ∧ auths after = auths slice
  ∧ numProbesPerRelay after = numProbesPerRelay slice
  ∧ unmetProbes (numProbesPerRelay slice) (exits after)
    = unmetProbes (numProbesPerRelay slice) (exits slice) - 1
  ∧ (torflowslice_getNumProbesRemaining after).1
    = (torflowslice_getNumProbesRemaining slice).1 - 1.
Proof.
  intros He Hwf Hn Hfit Hresult Hsome. cbv zeta.
  destruct (chooseRelayPair_cases randTarget randAuth slice result Hresult)
    as [(_ & Hnone & _)|[(_ & _ & Hnone & _)
                        |(t & a & Hrem & _ & _ & Ht & Ha & Hpair & _ & Hafter)]];
    [congruence|congruence|].
  rewrite Hsome in Hpair. injection Hpair as Hpair. subst pair.
  assert (g_hash_table_lookup (entries slice) t = NULL) as Hnull.
  { unfold g_hash_table_lookup. by rewrite He, lookup_empty. }
  cbv zeta in Hafter.
  rewrite Hnull, getNumProbesRemaining_eq in Hafter. cbv zeta in Hafter. simpl in Hafter.
  rewrite Hnull, Hafter. clear Hafter.
  rewrite (getNumProbesRemaining_eq slice) in Hrem |- *.
  rewrite (getNumProbesRemaining_eq (set_released _ _ _)).
  cbv zeta in Hrem |- *. simpl in Hrem |- *.
  rewrite targets_without_entries in Ht by done.
  rewrite He, unmetProbes_empty, Z.add_0_l in *.
  pose proof (unmetProbes_nonneg (numProbesPerRelay slice) (exits slice)) as Hnonneg.
  rewrite guint_wrap_small in Hrem by (unfold is_guint; lia).
  set (count := minProbes (exits slice)) in *.
  assert (count < numProbesPerRelay slice) as Hlt.
  { destruct (decide (count < numProbesPerRelay slice)) as [|Hge]; [done|].
    exfalso. apply Hrem. apply unmetProbes_zero_iff. intros k v Hk.
    pose proof (minProbes_le _ _ _ Hk). fold count in H. lia. }
  assert (is_guint count) as Hcount.
  { destruct Hwf as (_ & Hx & _). apply (Hx t count Ht). }
  unfold is_guint in Hcount, Hn.
  assert (g_hash_table_lookup (exits slice) t = count) as Hlook.
  { unfold g_hash_table_lookup. by rewrite Ht. }
  rewrite Hlook, (guint_wrap_small (count + 1)) by (unfold is_guint; lia).
  assert (unmetProbes (numProbesPerRelay slice) (<[t := count + 1]> (exits slice))
          = unmetProbes (numProbesPerRelay slice) (exits slice) - 1) as Hunmet.
  { rewrite (unmetProbes_insert _ _ _ count) by done. lia. }
  split_and!; try done.
  - exists count. split_and!; try done. intros k v. apply minProbes_le.
  - rewrite Hunmet, ?Z.add_0_l.
    rewrite (guint_wrap_small (unmetProbes (numProbesPerRelay slice) (exits slice)))
      by (unfold is_guint; lia).
    apply guint_wrap_small. unfold is_guint. lia.
Qed.

(** X10: on a slice without entries whose counts and probe target are
    [guint]s and whose unmet counts sum to a [guint], a successful
    [torflowslice_chooseRelayPair] hands the target back as the exit (a
    pointer to its released key) and the authority as the entry, raises the
    counter of that exit, which was below the probe target and was the
    least of the exits, by exactly one, changes no other counter, and lowers
    the answer of [torflowslice_getNumProbesRemaining] by exactly one. *)
Theorem chooseRelayPair_exits_only (randTarget randAuth : Z) (slice : TorFlowSlice)
    (result : ChooseResult) (pair : RelayPair) :
  entries slice = ∅ → counts_are_guint slice → is_guint (numProbesPerRelay slice) →
  unmetProbes (numProbesPerRelay slice) (exits slice) <= G_MAXUINT →
  torflowslice_chooseRelayPair randTarget randAuth slice = Returns result →
  chosen result = Some pair →
  let after := slice_after result in
  exitRelayIdentity pair = Dangling (targetID pair)
  ∧ entryRelayIdentity pair = Live (authID pair)
  ∧ (∃ count, exits slice !! targetID pair = Some count
              ∧ count < numProbesPerRelay slice
              ∧ (∀ k v, exits slice !! k = Some v → count <= v)
              ∧ exits after !! targetID pair = Some (count + 1))
  ∧ (∀ k, k ≠ targetID pair → exits after !! k = exits slice !! k)
  ∧ entries after = ∅
  ∧ auths after = auths slice
  ∧ (torflowslice_getNumProbesRemaining after).1
    = (torflowslice_getNumProbesRemaining slice).1 - 1.
Proof.
  intros He Hwf Hn Hfit Hresult Hsome. cbv zeta.
  destruct (exits_only_step randTarget randAuth slice result pair He Hwf Hn Hfit Hresult Hsome)
    as (Hme & (count & Hk & Hlt & Hleast & Hexits) & He' & Ha' & _ & _ & Hrem).
  unfold exitRelayIdentity, entryRelayIdentity. rewrite Hme, Hexits.
  split_and!; try done.
  - exists count. by rewrite lookup_insert_eq.
  - intros k Hne. by rewrite lookup_insert_ne.
Qed.

Lemma exits_slice_returns :
  exits_slice
  = Returns (mkSlice 0 0%float 2 0 None false ∅ (<["f" := 0]> (<["e" := 0]> ∅))
               (<["x" := 0]> ∅) ∅ ∅).
Proof. reflexivity. Qed.

Lemma exits_slice_counts (slice : TorFlowSlice) :
  exits_slice = Returns slice → counts_are_guint slice.
Proof.
  rewrite exits_slice_returns. intros [= <-]. unfold counts_are_guint. simpl.
  assert (is_guint 0) by (unfold is_guint, G_MAXUINT; lia).
  split; [|split].
  - apply map_Forall_empty.
  - repeat apply map_Forall_insert_2; try done; apply map_Forall_empty.
  - apply map_Forall_insert_2; [done|apply map_Forall_empty].
Qed.

Lemma chooseRelayPair_exits_only_witness :
  ∃ slice result,
    exits_slice = Returns slice
    ∧ torflowslice_chooseRelayPair 0 0 slice = Returns result
    ∧ chosen result = Some (mkPair "e" "x" false)
    ∧ (torflowslice_getNumProbesRemaining slice).1 = 4
    ∧ (torflowslice_getNumProbesRemaining (slice_after result)).1 = 4 - 1.
Proof.
  pose (slice := mkSlice 0 0%float 2 0 None false ∅ (<["f" := 0]> (<["e" := 0]> ∅))
                   (<["x" := 0]> ∅) ∅ ∅).
  destruct (torflowslice_chooseRelayPair 0 0 slice) as [|result] eqn:Hresult;
    [vm_compute in Hresult; discriminate Hresult|].
  assert (chosen result = Some (mkPair "e" "x" false)) as Hchosen.
  { vm_compute in Hresult. injection Hresult as <-. reflexivity. }
  exists slice, result. split; [exact exits_slice_returns|]. split; [exact Hresult|].
  split; [exact Hchosen|]. split; [vm_compute; reflexivity|].
  refine (proj2 (proj2 (proj2 (proj2 (proj2 (proj2
    (chooseRelayPair_exits_only 0 0 slice result _ _
       (exits_slice_counts _ exits_slice_returns) _ _ Hresult Hchosen))))))).
  - reflexivity.
  - vm_compute. split; discriminate.
  - vm_compute. discriminate.
Defined.

(** ** After a selection *)

(** X11: a successful [torflowslice_chooseRelayPair] leaves the slice with
    every key of the entries and exits partitions released, so that little
    can be done with it: as long as probes remain a further selection is
    undefined, whatever the draws (when none remain it answers FALSE); a
    membership query that the cache cannot answer is undefined; adding
    again, under the same role, a relay whose identity one of the two
    partitions holds is undefined; and so is [torflowslice_free]. *)
Theorem chooseRelayPair_once (randTarget randAuth : Z) (slice : TorFlowSlice)
    (result : ChooseResult) (pair : RelayPair) :
  torflowslice_chooseRelayPair randTarget randAuth slice = Returns result →
  chosen result = Some pair →
  let after := slice_after result in
  (∀ randTarget' randAuth',
     if (torflowslice_getNumProbesRemaining after).1 =? 0 then
       ∃ last, torflowslice_chooseRelayPair randTarget' randAuth' after = Returns last
               ∧ chosen last = None
     else torflowslice_chooseRelayPair randTarget' randAuth' after = Undefined)
  ∧ (∀ id, ¬ cache_hit after id → torflowslice_contains after (Some id) = Undefined)
  ∧ (∀ relay onlyMeasureExits,
       torflowrelay_getIsAuth relay = false →
       torflowrelay_getIsExit relay = true →
       is_Some (exits after !! torflowrelay_getIdentity relay) →
       torflowslice_addRelay after relay onlyMeasureExits = Undefined)
  ∧ (∀ relay,
       torflowrelay_getIsAuth relay = false →
       torflowrelay_getIsExit relay = false →
       is_Some (entries after !! torflowrelay_getIdentity relay) →
       torflowslice_addRelay after relay false = Undefined)
  ∧ torflowslice_free after = Undefined.
Proof.
  intros Hresult Hsome. cbv zeta.
  destruct (chooseRelayPair_effect randTarget randAuth slice result pair Hresult Hsome)
    as (_ & Hme & Hentry & Hexit & _ & _ & Hre & Hrx).
  assert (targetID pair ∈ entries_released (slice_after result)
          ∨ targetID pair ∈ exits_released (slice_after result)) as Htarget.
  { rewrite Hre, Hrx. destruct (measureEntry pair).
    - left. destruct (Hentry eq_refl) as [-> _]. rewrite dom_insert_L. set_solver.
    - right. destruct (Hexit eq_refl) as [_ ->]. rewrite dom_insert_L. set_solver. }
  assert (¬ keys_allocated (slice_after result)) as Hreleased.
  { intros [He Hx]. rewrite He, Hx in Htarget. set_solver. }
  split_and!.
  - intros r3 r4. rewrite chooseRelayPair_unfold, getNumProbesRemaining_eq. cbv zeta. simpl.
    set (remaining := guint_wrap _).
    pose proof (guint_wrap_range
      (unmetProbes (numProbesPerRelay (slice_after result)) (entries (slice_after result))
       + unmetProbes (numProbesPerRelay (slice_after result)) (exits (slice_after result))))
      as Hrange.
    fold remaining in Hrange. unfold is_guint in Hrange.
    destruct (Z.eqb_spec remaining 0) as [->|Hne]; [by eexists|].
    destruct (Z.leb_spec remaining 0); [lia|]. by rewrite decide_False.
  - intros id Hmiss. rewrite contains_scan by done. cbv zeta.
    destruct (decide (entries_released (slice_after result) = ∅)) as [He|]; [|done].
    destruct Htarget as [Ht|Ht]; [rewrite He in Ht; set_solver|].
    assert (matches (entries (slice_after result)) id = false) as ->.
    { apply not_true_is_false. intros (k & [v Hk] & _)%matches_holds.
      apply (elem_of_dom_2 (entries (slice_after result))) in Hk. rewrite <- Hre, He in Hk.
      set_solver. }
    rewrite decide_False; [done|set_solver].
  - intros relay flag Hauth Hexitrole Hheld. rewrite addRelay_unfold. cbv zeta.
    rewrite Hauth, Hexitrole. rewrite decide_True; [done|].
    rewrite Hrx. by apply elem_of_dom.
  - intros relay Hauth Hexitrole Hheld. rewrite addRelay_unfold. cbv zeta.
    rewrite Hauth, Hexitrole. rewrite decide_True; [done|].
    rewrite Hre. by apply elem_of_dom.
  - unfold torflowslice_free, keys_touched.
    destruct (decide (entries_released (slice_after result) = ∅)) as [He|]; [|done].
    destruct Htarget as [Ht|Ht]; [rewrite He in Ht; set_solver|].
    cbn [mbind Outcome_bind]. rewrite decide_False; [done|set_solver].
Qed.

Lemma chooseRelayPair_once_witness :
  ∃ slice result,
    exits_slice = Returns slice
    ∧ torflowslice_chooseRelayPair 0 0 slice = Returns result
    ∧ chosen result = Some (mkPair "e" "x" false)
    ∧ (torflowslice_getNumProbesRemaining (slice_after result)).1 = 3
    ∧ torflowslice_chooseRelayPair 1 1 (slice_after result) = Undefined
    ∧ torflowslice_contains (slice_after result) (Some "f") = Undefined
    ∧ torflowslice_free (slice_after result) = Undefined.
Proof.
  pose (slice := mkSlice 0 0%float 2 0 None false ∅ (<["f" := 0]> (<["e" := 0]> ∅))
                   (<["x" := 0]> ∅) ∅ ∅).
  destruct (torflowslice_chooseRelayPair 0 0 slice) as [|result] eqn:Hresult;
    [vm_compute in Hresult; discriminate Hresult|].
  assert (chosen result = Some (mkPair "e" "x" false)) as Hchosen.
  { vm_compute in Hresult. injection Hresult as <-. reflexivity. }
  assert ((torflowslice_getNumProbesRemaining (slice_after result)).1 = 3) as Hremaining.
  { vm_compute in Hresult. injection Hresult as <-. vm_compute. reflexivity. }
  assert (relayIDSearch (slice_after result) = None) as Hcache.
  { vm_compute in Hresult. injection Hresult as <-. reflexivity. }
  destruct (chooseRelayPair_once 0 0 slice result _ Hresult Hchosen)
    as (Hagain & Hcontains & _ & _ & Hfree).
  exists slice, result. split; [exact exits_slice_returns|]. split; [exact Hresult|].
  split; [exact Hchosen|]. split; [exact Hremaining|]. split; [|split; [|exact Hfree]].
  - specialize (Hagain 1 1). by rewrite Hremaining in Hagain.
  - apply Hcontains. intros (cached & Hc & _). by rewrite Hcache in Hc.
Defined.

(** ** Slices a program can build *)

Lemma addRelay_invariant (slice after : TorFlowSlice) (relay : TorFlowRelay) (flag : bool) :
  torflowslice_addRelay slice relay flag = Returns after →
  counts_are_guint slice ∧ all_unprobed (entries slice) ∧ all_unprobed (auths slice) →
  counts_are_guint after
  ∧ all_unprobed (entries after)
  ∧ all_unprobed (auths after)
  ∧ numProbesPerRelay after = numProbesPerRelay slice
  ∧ dom (entries slice) ⊆ dom (entries after)
  ∧ dom (exits slice) ⊆ dom (exits after).
Proof.
  intros Hafter ((He & Hx & Ha) & Hzero & Hauths).
  assert (is_guint 0) as H0 by (unfold is_guint, G_MAXUINT; lia).
  rewrite addRelay_unfold in Hafter. cbv zeta in Hafter.
  unfold counts_are_guint, all_unprobed.
  destruct (torflowrelay_getIsAuth relay), (torflowrelay_getIsExit relay), flag;
    repeat (destruct (decide (_ ∈ _)); [done|]);
    injection Hafter as <-; simpl; rewrite ?dom_insert_L;
    split_and!; try done; try (by apply map_Forall_insert_2); set_solver.
Qed.

Lemma chooseRelayPair_invariant (randTarget randAuth : Z) (slice : TorFlowSlice)
    (result : ChooseResult) :
  torflowslice_chooseRelayPair randTarget randAuth slice = Returns result →
  counts_are_guint slice ∧ all_unprobed (entries slice) ∧ all_unprobed (auths slice) →
  counts_are_guint (slice_after result)
  ∧ entries (slice_after result) = entries slice
  ∧ auths (slice_after result) = auths slice
  ∧ numProbesPerRelay (slice_after result) = numProbesPerRelay slice
  ∧ (entries_released slice ⊆ dom (entries slice) →
     entries_released (slice_after result) ⊆ dom (entries (slice_after result)))
  ∧ (exits_released slice ⊆ dom (exits slice) →
     exits_released (slice_after result) ⊆ dom (exits (slice_after result))).
Proof.
  intros Hresult ((He & Hx & Ha) & Hzero & _).
  destruct (chooseRelayPair_cases randTarget randAuth slice result Hresult)
    as [(_ & _ & -> & _)|[(_ & _ & _ & -> & _)|(t & a & _ & _ & _ & _ & _ & _ & _ & ->)]];
    rewrite getNumProbesRemaining_eq; cbv zeta; simpl; [done| |].
  { split_and!; try done; set_solver. }
  assert (g_hash_table_lookup (entries slice) t = NULL) as ->.
  { unfold g_hash_table_lookup. destruct (entries slice !! t) as [v|] eqn:Hk; [|done].
    apply (Hzero t v Hk). }
  simpl. split_and!; try done.
  split_and!; try done. apply map_Forall_insert_2; [apply guint_wrap_range|done].
Qed.

(** X12: on every slice a program can build within defined behaviour,
    starting from [torflowslice_new] with a [guint] probe target and going
    on with [torflowslice_addRelay], [torflowslice_getNumProbesRemaining],
    [torflowslice_chooseRelayPair], [torflowslice_logStatus] and
    [torflowslice_contains], every count is a [guint] and every counter of
    the entries and of the authorities partition is 0: no selection ever
    counts a relay as an entry, so the entries partition never gets closer
    to its probe target. The released keys are keys of their table. *)
Theorem reachable_counts (slice : TorFlowSlice) :
  reachable slice →
  counts_are_guint slice
  ∧ is_guint (numProbesPerRelay slice)
  ∧ all_unprobed (entries slice)
  ∧ all_unprobed (auths slice)
  ∧ unmetProbes (numProbesPerRelay slice) (entries slice)
    = numProbesPerRelay slice * Z.of_nat (size (entries slice))
  ∧ entries_released slice ⊆ dom (entries slice)
  ∧ exits_released slice ⊆ dom (exits slice)
  ∧ ∀ randTarget randAuth result,
      torflowslice_chooseRelayPair randTarget randAuth slice = Returns result →
      entries (slice_after result) = entries slice.
Proof.
  intros Hreach.
  assert (counts_are_guint slice ∧ is_guint (numProbesPerRelay slice)
          ∧ all_unprobed (entries slice) ∧ all_unprobed (auths slice)
          ∧ entries_released slice ⊆ dom (entries slice)
          ∧ exits_released slice ⊆ dom (exits slice))
    as (Hwf & Hn & Hzero & Hauths & Hre & Hrx).
  { induction Hreach as [id pct n Hn|slice after relay flag _ IH Hafter|slice _ IH
                         |rT rA slice result _ IH Hresult|slice _ IH
                         |slice query result _ IH Hresult].
    - split_and!; try done; repeat split; apply map_Forall_empty.
    - destruct IH as (Hwf & Hn & Hzero & Hauths & Hre & Hrx).
      destruct (addRelay_invariant slice after relay flag Hafter) as (? & ? & ? & -> & ? & ?);
        [done|].
      destruct (addRelay_cache _ _ _ _ Hafter) as (_ & _ & -> & ->).
      split_and!; try done; set_solver.
    - by rewrite getNumProbesRemaining_eq.
    - destruct IH as (Hwf & Hn & Hzero & Hauths & Hre & Hrx).
      destruct (chooseRelayPair_invariant rT rA slice result Hresult)
        as (? & He & Ha & -> & ? & ?); [done|].
      rewrite He, Ha. rewrite He in *. split_and!; auto.
    - unfold torflowslice_logStatus. by rewrite getNumProbesRemaining_eq.
    - destruct query as [id|]; [|by injection Hresult as <-].
      destruct (decide (cache_hit slice id)) as [Hhit|Hmiss].
      + rewrite contains_hit in Hresult by done. by injection Hresult as <-.
      + rewrite contains_scan in Hresult by done. cbv zeta in Hresult.
        destruct (decide (entries_released slice = ∅)); [|done].
        destruct (matches (entries slice) id); [by injection Hresult as <-|].
        destruct (decide (exits_released slice = ∅)); [|done]. by injection Hresult as <-. }
  split_and!; try done.
  - unfold unmetProbes, all_unprobed in *. rewrite map_Forall_to_list in Hzero.
    rewrite <- length_map_to_list.
    induction Hzero as [|[k v] l Hv Hl IH]; [simpl; lia|].
    simpl in Hv. subst v. rewrite fmap_cons. unfold Zsum in *. cbn [foldr length].
    rewrite IH. unfold is_guint in Hn. simpl. lia.
  - intros rT rA result Hresult.
    by destruct (chooseRelayPair_invariant rT rA slice result Hresult) as (_ & ? & _).
Qed.

Lemma reachable_counts_witness :
  ∃ slice result,
    fresh_slice = Returns slice
    ∧ torflowslice_chooseRelayPair 0 0 slice = Returns result
    ∧ reachable (slice_after result)
    ∧ all_unprobed (entries (slice_after result)).
Proof.
  pose (slice := mkSlice 0 0%float 1 0 None false (<["a" := 0]> ∅) ∅ (<["x" := 0]> ∅) ∅ ∅).
  destruct (torflowslice_chooseRelayPair 0 0 slice) as [|result] eqn:Hresult;
    [vm_compute in Hresult; discriminate Hresult|].
  assert (reachable (slice_after result)) as H.
  { apply (reach_chooseRelayPair 0 0 slice result); [|exact Hresult].
    apply (reach_addRelay
             (mkSlice 0 0%float 1 0 None false (<["a" := 0]> ∅) ∅ ∅ ∅ ∅) slice
             (relay "x" true false) false); [|reflexivity].
    apply (reach_addRelay (torflowslice_new 0 0%float 1) _ (relay "a" false false) false);
      [|reflexivity].
    apply reach_new. vm_compute. split; discriminate. }
  exists slice, result. split; [exact fresh_slice_returns|]. split; [exact Hresult|].
  split; [exact H|].
  exact (proj1 (proj2 (proj2 (reachable_counts _ H)))).
Defined.

(** ** The membership cache *)

Lemma caseless_trans (s1 s2 s3 : string) :
  ascii_caseless_eq s1 s2 → ascii_caseless_eq s2 s3 → ascii_caseless_eq s1 s3.
Proof. unfold ascii_caseless_eq. congruence. Qed.

Lemma holds_caseless_same (table : gmap string Z) (id cached : string) :
  g_ascii_strcasecmp id cached = 0 →
  holds_caseless table cached ↔ holds_caseless table id.
Proof.
  intros Hcmp. unfold holds_caseless.
  split; intros (k & Hk & Heq); exists k; (split; [done|]);
    eapply caseless_trans; try exact Heq; apply strcasecmp_caseless;
    [by apply strcasecmp_sym|done].
Qed.

Lemma found_iff (slice : TorFlowSlice) (id : string) :
  matches (entries slice) id || matches (exits slice) id = true
  ↔ holds_caseless (entries slice) id ∨ holds_caseless (exits slice) id.
Proof. by rewrite orb_true_iff, !matches_holds. Qed.

(** X13: call the cache coherent when it is empty or holds the answer a
    walk of the partitions would give. A new slice is coherent and its keys
    are allocated; on a coherent slice whose key strings are all allocated,
    [torflowslice_contains] returns, it answers true exactly when some key
    of the entries or exits partition equals the query up to ASCII case,
    whether the cache answers or not, and it leaves the slice coherent,
    with its keys allocated and with nothing changed but the cache. *)
Theorem contains_coherent (slice : TorFlowSlice) (id : string)
    (sliceID : Z) (pct : float) (numProbes : Z) :
  cache_coherent slice → keys_allocated slice →
  cache_coherent (torflowslice_new sliceID pct numProbes)
  ∧ keys_allocated (torflowslice_new sliceID pct numProbes)
  ∧ ∃ result,
      torflowslice_contains slice (Some id) = Returns result
      ∧ (answer result = true
         ↔ holds_caseless (entries slice) id ∨ holds_caseless (exits slice) id)
      ∧ cache_coherent (slice_then result)
      ∧ keys_allocated (slice_then result)
      ∧ entries (slice_then result) = entries slice
      ∧ exits (slice_then result) = exits slice
      ∧ auths (slice_then result) = auths slice
      ∧ totalProbesRemaining (slice_then result) = totalProbesRemaining slice.
Proof.
  intros Hcoh Hlive. split; [done|]. split; [done|].
  destruct (decide (cache_hit slice id)) as [Hhit|Hmiss].
  - rewrite contains_hit by done. eexists. split; [done|]. simpl. split_and!; try done.
    destruct Hhit as (cached & Hc & Hcmp). rewrite (Hcoh cached Hc), found_iff.
    by rewrite !(holds_caseless_same _ id cached).
  - rewrite contains_scan_allocated by done. eexists. split; [done|].
    simpl. split_and!; try done.
    + apply found_iff.
    + intros cached [= <-]. done.
Qed.

Lemma contains_coherent_witness :
  ∃ slice result,
    fresh_slice = Returns slice
    ∧ cache_coherent slice ∧ keys_allocated slice
    ∧ torflowslice_contains slice (Some "A") = Returns result
    ∧ (answer result = true
       ↔ holds_caseless (entries slice) "A" ∨ holds_caseless (exits slice) "A").
Proof.
  pose (slice := mkSlice 0 0%float 1 0 None false (<["a" := 0]> ∅) ∅ (<["x" := 0]> ∅) ∅ ∅).
  assert (cache_coherent slice) as H.
  { intros cached Hc. discriminate Hc. }
  destruct (contains_coherent slice "A" 0 0%float 1 H (conj eq_refl eq_refl))
    as (_ & _ & result & Hresult & Hiff & _).
  exists slice, result. split; [exact fresh_slice_returns|].
  split; [exact H|]. split; [split; reflexivity|]. split; [exact Hresult|exact Hiff].
Defined.

(** ** The payload table *)

Lemma SFcompare_le_lt (f1 f2 f3 : spec_float) :
  SFleb f1 f2 = true → SFltb f2 f3 = true → SFltb f1 f3 = true.
Proof.
  unfold SFleb, SFltb.
  destruct f1 as [s1|s1| |s1 m1 e1], f2 as [s2|s2| |s2 m2 e2], f3 as [s3|s3| |s3 m3 e3];
    simpl; try done;
    try (destruct s1; simpl; try done); try (destruct s2; simpl; try done);
    try (destruct s3; simpl; try done);
    destruct (Z.compare_spec e1 e2); simpl; try done;
    destruct (Z.compare_spec e2 e3); simpl; try done;
    destruct (Z.compare_spec e1 e3); simpl; try done; try lia;
    fold (Pos.compare m1 m2); fold (Pos.compare m2 m3); fold (Pos.compare m1 m3);
    destruct (Pos.compare_spec m1 m2); simpl; try done;
    destruct (Pos.compare_spec m2 m3); simpl; try done;
    destruct (Pos.compare_spec m1 m3); simpl; try done; lia.
Qed.

Lemma ltb_below (p q bound : float) :
  PrimFloat.leb p q = true → PrimFloat.ltb p bound = false → PrimFloat.ltb q bound = false.
Proof.
  intros Hle Hp. destruct (PrimFloat.ltb q bound) eqn:Hq; [|done].
  rewrite leb_spec in Hle. rewrite ltb_spec in Hp, Hq.
  by rewrite (SFcompare_le_lt _ _ _ Hle Hq) in Hp.
Qed.

Ltac split_bands :=
  repeat (match goal with
          | |- context [PrimFloat.ltb ?q ?c] => destruct (PrimFloat.ltb q c)
          end).

Ltac band Hle :=
  lazymatch goal with
  | |- _ <= (if PrimFloat.ltb ?p ?bound then _ else _) =>
      let Hband := fresh "Hband" in
      destruct (PrimFloat.ltb p bound) eqn:Hband;
      [ split_bands; lia | rewrite (ltb_below _ _ bound Hle Hband) ]
  end.

(** X14: [torflowslice_getTransferSize] answers one of the eight sizes of
    its table, so at least 32 KiB and at most 1 GiB, and the size does not
    grow with the percentile: a slice whose percentile is at least that of
    another gets a payload that is at most the other's. *)
Theorem getTransferSize_monotone (slice1 slice2 : TorFlowSlice) :
  torflowslice_getTransferSize slice1 ∈ transferSizes
  ∧ 32 * 1024 <= torflowslice_getTransferSize slice1 <= 1024 * 1024 * 1024
  ∧ (PrimFloat.leb (percentile slice1) (percentile slice2) = true →
     torflowslice_getTransferSize slice2 <= torflowslice_getTransferSize slice1).
Proof.
  unfold torflowslice_getTransferSize. split; [|split].
  - apply list_elem_of_In. unfold transferSizes. split_bands;
      repeat (first [left; reflexivity | right]).
  - split_bands; lia.
  - intros Hle. do 7 band Hle. lia.
Qed.

Lemma getTransferSize_monotone_witness :
  PrimFloat.leb 0.5 0.75 = true
  ∧ torflowslice_getTransferSize (torflowslice_new 0 0.5 1) = 512 * 1024
  ∧ torflowslice_getTransferSize (torflowslice_new 0 0.75 1)
    <= torflowslice_getTransferSize (torflowslice_new 0 0.5 1).
Proof.
  split; [vm_compute; reflexivity|]. split; [vm_compute; reflexivity|].
  apply (proj2 (proj2
    (getTransferSize_monotone (torflowslice_new 0 0.5 1) (torflowslice_new 0 0.75 1)))).
  vm_compute. reflexivity.
Defined.

(** ** Seeding and reporting *)





(** What filing records never touches, and what it never takes back. *)
Lemma fileStats_frame (f : TorFlowRelay → TorFlowRelayStats) (l : list TorFlowRelay)
    (tfa after : TorFlowAggregator) :
  for_each (λ tfa current, fileStats tfa (f current)) tfa l = Returns after →
  numWorkers after = numWorkers tfa
  ∧ gotInitial after = gotInitial tfa
  ∧ filename after = filename tfa
  ∧ nodeCap after = nodeCap tfa
  ∧ version after = version tfa
  ∧ relayStats_released tfa ⊆ relayStats_released after
  ∧ (∀ r, r ∈ l → is_Some (relayStats tfa !! identity (f r)) →
          identity (f r) ∈ relayStats_released after).
Proof.
  revert tfa. induction l as [|r l IH]; intros tfa; cbn [for_each].
  { intros [= <-]. split_and!; try done. intros r Hr. by apply elem_of_nil in Hr. }
  rewrite fileStats_unfold. destruct (decide (_ ∈ _)) as [|Hlive]; [done|].
  cbn [mbind Outcome_bind]. intros Hafter.
  destruct (IH _ Hafter) as (-> & -> & -> & -> & -> & Hsub & Hheld).
  cbn [numWorkers gotInitial filename relayStats nodeCap version relayStats_released] in *.
  split_and!; try done.
  - destruct (decide (is_Some _)); set_solver.
  - intros r' [->|Hr']%elem_of_cons Hin.
    + apply Hsub. rewrite decide_True by done. set_solver.
    + apply Hheld; [done|]. destruct (decide (identity (f r') = identity (f r))) as [->|Hne].
      * rewrite lookup_insert_eq. eauto.
      * by rewrite lookup_insert_ne.
Qed.

(** Filing a record under an identity whose key has been released is
    undefined, wherever in the list it comes. *)
Lemma fileStats_released (f : TorFlowRelay → TorFlowRelayStats) (l : list TorFlowRelay)
    (tfa : TorFlowAggregator) (r : TorFlowRelay) :
  r ∈ l → identity (f r) ∈ relayStats_released tfa →
  for_each (λ tfa current, fileStats tfa (f current)) tfa l = Undefined.
Proof.
  revert tfa. induction l as [|r0 l IH]; intros tfa Hin Hreleased.
  { by apply elem_of_nil in Hin. }
  cbn [for_each]. rewrite fileStats_unfold.
  destruct (decide (identity (f r0) ∈ relayStats_released tfa)) as [|Hlive]; [done|].
  cbn [mbind Outcome_bind]. apply elem_of_cons in Hin as [->|Hin]; [done|].
  apply IH; [done|]. cbn [relayStats_released]. destruct (decide (is_Some _)); set_solver.
Qed.

(** The loop of a measurement report files the relays of the window that
    have enough samples. *)
Lemma measured_walk (f : TorFlowRelay → TorFlowRelayStats) (threshold : Z)
    (l : list TorFlowRelay) (tfa : TorFlowAggregator) :
  for_each (λ tfa current,
              if relay_measureCount current >=? threshold then fileStats tfa (f current)
              else Returns tfa)
           tfa l
  = for_each (λ tfa current, fileStats tfa (f current)) tfa
      (filter (λ current, threshold <= relay_measureCount current) l).
Proof.
  revert tfa. induction l as [|r l IH]; intros tfa; [done|].
  cbn [for_each]. rewrite filter_cons, Z.geb_leb.
  destruct (Z.leb_spec threshold (relay_measureCount r)).
  - rewrite decide_True by done. cbn [for_each].
    destruct (fileStats tfa (f r)); [done|]. apply IH.
  - rewrite decide_False by lia. apply IH.
Qed.

Lemma reportMeasurements_unfold (mean : TorFlowRelay → Z) (filtered : TorFlowRelay → Z → Z)
    (threshold now_sec unlink_ret symlink_ret : Z) (tfa : TorFlowAggregator)
    (measuredRelays : list TorFlowRelay) (sliceSize currSlice : Z) :
  torflowaggregator_reportMeasurements mean filtered threshold
    now_sec unlink_ret symlink_ret tfa measuredRelays sliceSize currSlice
  = _torflowaggregator_printToFile now_sec unlink_ret symlink_ret
      <$> for_each (λ tfa current, fileStats tfa (measuredStats mean filtered current)) tfa
            (qualifying threshold measuredRelays sliceSize currSlice).
Proof.
  unfold torflowaggregator_reportMeasurements. cbv zeta.
  rewrite (measured_walk (measuredStats mean filtered)).
  fold (qualifying threshold measuredRelays sliceSize currSlice).
  by destruct (for_each _ tfa _).
Qed.

(** X15: [torflowaggregator_reportInitial] seeds once: a call on an
    aggregator that was already seeded returns it unchanged; and when a
    call returns, a second call, whatever its list, changes nothing; the
    first call leaves the aggregator marked as seeded and does not touch
    its version, file name, cap or worker count. *)
Theorem reportInitial_once (tfa : TorFlowAggregator) (relays more : list TorFlowRelay) :
  (gotInitial tfa = true → torflowaggregator_reportInitial tfa relays = Returns tfa)
  ∧ ∀ after,
      torflowaggregator_reportInitial tfa relays = Returns after →
      torflowaggregator_reportInitial after more = Returns after
      ∧ gotInitial after = true
      ∧ version after = version tfa
      ∧ filename after = filename tfa
      ∧ nodeCap after = nodeCap tfa
      ∧ numWorkers after = numWorkers tfa.
Proof.
  unfold torflowaggregator_reportInitial. split.
  - by intros ->.
  - intros after. destruct (gotInitial tfa) eqn:Hgot.
    + intros [= <-]. by rewrite Hgot.
    + intros Hafter.
      destruct (fileStats_frame initialStats _ _ _ Hafter) as (-> & Hseeded & -> & -> & -> & _).
      cbn [gotInitial set_gotInitial] in Hseeded. rewrite Hseeded. by split_and!.
Qed.



(** ** What a publish writes *)


(** X17: a publish recomputes the new bandwidths and nothing else: the
    stats table keeps its keys, every record keeps its nickname, identity,
    descriptor, advertised, mean and filtered bandwidth, and the aggregator
    keeps its worker count, seeding mark, file name and cap, whatever
    [unlink] and [symlink] answer; no key is released. *)
Theorem publish_keeps_measurements (now_sec unlink_ret symlink_ret : Z)
    (tfa : TorFlowAggregator) :
  let after := (_torflowaggregator_printToFile now_sec unlink_ret symlink_ret tfa).1 in
  (∀ k, measuredFields <$> relayStats after !! k = measuredFields <$> relayStats tfa !! k)
  ∧ dom (relayStats after) = dom (relayStats tfa)
  ∧ numWorkers after = numWorkers tfa
  ∧ gotInitial after = gotInitial tfa
  ∧ filename after = filename tfa
  ∧ nodeCap after = nodeCap tfa
  ∧ relayStats_released after = relayStats_released tfa.
Proof.
  cbv zeta.
  destruct (printToFile_table now_sec unlink_ret symlink_ret tfa) as [bandwidth ->].
  rewrite printToFile_unfold. cbv zeta.
  cbn [fst numWorkers gotInitial filename nodeCap relayStats_released].
  split_and!; try done.
  - intros k. rewrite lookup_fmap. by destruct (relayStats tfa !! k).
  - apply dom_fmap_L.
Qed.


(** X19: what a publish prints is the seconds of the clock on a first line
    and then one row per record of the stats table, each made of the
    identity, the new bandwidth and the nickname the record has when the
    publish ends: as many rows as the table has records, in whatever order
    the table is walked. *)
Theorem publish_lines (now_sec unlink_ret symlink_ret : Z) (tfa : TorFlowAggregator) :
  let result := _torflowaggregator_printToFile now_sec unlink_ret symlink_ret tfa in
  ∃ rows,
    printed result.2 = (pretty now_sec +:+ newline) :: rows
    ∧ rows ≡ₚ reportLine <$> (map_to_list (relayStats result.1)).*2
    ∧ length rows = size (relayStats tfa).
Proof.
  cbv zeta.
  destruct (printToFile_written now_sec unlink_ret symlink_ret tfa) as [_ Hprinted].
  cbv zeta in Hprinted. eexists. split; [exact Hprinted|]. split; [done|].
  rewrite !length_fmap, length_map_to_list.
  destruct (printToFile_table now_sec unlink_ret symlink_ret tfa) as [bandwidth ->].
  apply map_size_fmap.
Qed.

(** ** Measurement reports *)



(** X22: a measurement report that files a relay whose identity the table
    already holds, as it does for every relay that was seeded, leaves the
    key of that identity released; from then on every seeding or
    measurement report that files a relay of that identity is undefined. *)
Theorem reportMeasurements_again (mean : TorFlowRelay → Z) (filtered : TorFlowRelay → Z → Z)
    (threshold now_sec unlink_ret symlink_ret : Z) (tfa : TorFlowAggregator)
    (measuredRelays : list TorFlowRelay) (sliceSize currSlice : Z)
    (result : TorFlowAggregator * list Event) (r : TorFlowRelay) :
  r ∈ qualifying threshold measuredRelays sliceSize currSlice →
  is_Some (relayStats tfa !! relay_identity r) →
  torflowaggregator_reportMeasurements mean filtered threshold
    now_sec unlink_ret symlink_ret tfa measuredRelays sliceSize currSlice
  = Returns result →
  relay_identity r ∈ relayStats_released result.1
  ∧ (∀ now_sec' unlink_ret' symlink_ret' measuredRelays' sliceSize' currSlice' r',
       r' ∈ qualifying threshold measuredRelays' sliceSize' currSlice' →
       relay_identity r' = relay_identity r →
       torflowaggregator_reportMeasurements mean filtered threshold
         now_sec' unlink_ret' symlink_ret' result.1 measuredRelays' sliceSize' currSlice'
       = Undefined)
  ∧ (∀ relays r',
       r' ∈ relays → relay_identity r' = relay_identity r →
       torflowaggregator_reportInitial (set_gotInitial result.1 false) relays = Undefined).
Proof.
  intros Hr Hheld. rewrite reportMeasurements_unfold.
  destruct (for_each _ tfa _) as [|filed] eqn:Hfiled; [done|]. intros [= <-].
  destruct (fileStats_frame (measuredStats mean filtered) _ _ _ Hfiled)
    as (_ & _ & _ & _ & _ & _ & Hreleased).
  assert (relay_identity r
          ∈ relayStats_released
              (_torflowaggregator_printToFile now_sec unlink_ret symlink_ret filed).1) as Hgone.
  { rewrite printToFile_unfold. cbn [fst relayStats_released]. by apply (Hreleased r). }
  split; [done|]. split.
  - intros now' unlink' symlink' measured' size' curr' r' Hr' Hsame.
    rewrite reportMeasurements_unfold.
    rewrite (fileStats_released (measuredStats mean filtered) _ _ r'); [done|done|].
    cbn [identity measuredStats]. by rewrite Hsame.
  - intros relays r' Hr' Hsame. unfold torflowaggregator_reportInitial.
    cbn [gotInitial set_gotInitial].
    rewrite (fileStats_released initialStats _ _ r'); [done|done|].
    cbn [identity initialStats relayStats_released]. by rewrite Hsame.
Qed.

Lemma reportMeasurements_again_witness :
  ∃ seeded first,
    torflowaggregator_reportInitial (torflowaggregator_new "v3bw" 1 1%float)
      [mkRelay "n0" "A" false false 10 11 5; mkRelay "n1" "B" false false 20 21 2]
    = Returns seeded
    ∧ torflowaggregator_reportMeasurements relay_descriptorBandwidth (λ _ m, m + 1) 2
        0 (-1) (-1) seeded
        [mkRelay "n0" "A" false false 10 11 5; mkRelay "n1" "B" false false 20 21 2] 2 0
      = Returns first
    ∧ size (relayStats first.1) = 2%nat
    ∧ relayStats_released first.1 = {["A"; "B"]}
    ∧ torflowaggregator_reportMeasurements relay_descriptorBandwidth (λ _ m, m + 1) 2
        1 (-1) (-1) first.1
        [mkRelay "n0" "A" false false 10 11 5; mkRelay "n1" "B" false false 20 21 2] 2 0
      = Undefined.
Proof.
  pose (A := mkRelay "n0" "A" false false 10 11 5).
  pose (B := mkRelay "n1" "B" false false 20 21 2).
  destruct (torflowaggregator_reportInitial (torflowaggregator_new "v3bw" 1 1%float) [A; B])
    as [|seeded] eqn:Hseeded; [vm_compute in Hseeded; discriminate Hseeded|].
  assert (seeded
          = mkAggregator 1 true "v3bw"
              (<["B" := mkStats "n1" "B" 20 21 0 20 20]>
                 (<["A" := mkStats "n0" "A" 10 11 0 10 10]> ∅)) 1%float 0 ∅) as Hvalue.
  { vm_compute in Hseeded. injection Hseeded as <-. reflexivity. }
  destruct (torflowaggregator_reportMeasurements relay_descriptorBandwidth (λ _ m, m + 1) 2
              0 (-1) (-1) seeded [A; B] 2 0) as [|first] eqn:Hfirst.
  { rewrite Hvalue in Hfirst. vm_compute in Hfirst. discriminate Hfirst. }
  destruct (reportMeasurements_again relay_descriptorBandwidth (λ _ m, m + 1) 2
              0 (-1) (-1) seeded [A; B] 2 0 first A) as (_ & Hagain & _).
  - apply list_elem_of_In. vm_compute. left. reflexivity.
  - rewrite Hvalue. vm_compute. eauto.
  - exact Hfirst.
  - exists seeded, first. split; [exact Hseeded|]. split; [exact Hfirst|].
    split; [rewrite Hvalue in Hfirst; vm_compute in Hfirst; injection Hfirst as <-;
            vm_compute; reflexivity|].
    split; [rewrite Hvalue in Hfirst; vm_compute in Hfirst; injection Hfirst as <-;
            vm_compute; reflexivity|].
    apply (Hagain 1 (-1) (-1) [A; B] 2 0 A); [|reflexivity].
    apply list_elem_of_In. vm_compute. left. reflexivity.
Defined.

(** ** An empty table *)

(** X21: a publish over an empty stats table, as right after
    [torflowaggregator_new], runs none of its three loops: it opens the
    file named after the current version, prints the seconds of the clock
    and nothing else and closes the file, in that order, before it turns to
    the link; it logs no capping, and the table is still empty
    afterwards. *)
Theorem publish_empty (now_sec unlink_ret symlink_ret : Z) (tfa : TorFlowAggregator) :
  relayStats tfa = ∅ →
  let result := _torflowaggregator_printToFile now_sec unlink_ret symlink_ret tfa in
  relayStats result.1 = ∅
  ∧ printed result.2 = [pretty now_sec +:+ newline]
  ∧ messages result.2 = []
  ∧ take 3 result.2
    = [Fopen (filename tfa +:+ "." +:+ pretty (version tfa));
       Fprintf (pretty now_sec +:+ newline); Fclose].
Proof.
  intros Hempty. cbv zeta. rewrite printToFile_unfold. cbv zeta. rewrite Hempty.
  unfold redistribute, sumBandwidths, assignNewBandwidths, capAndPrint.
  rewrite map_to_list_empty. cbn [foldl fst snd relayStats].
  rewrite map_to_list_empty. cbn [foldl fst snd].
  split_and!; try done.
  - unfold printed. by destruct (unlink_ret =? 0), (symlink_ret =? 0).
  - unfold messages. by destruct (unlink_ret =? 0), (symlink_ret =? 0).
Qed.

Lemma publish_empty_witness :
  printed (_torflowaggregator_printToFile 1700000000 0 0
             (torflowaggregator_new "v3bw" 4 0.5%float)).2
  = ["1700000000" +:+ newline].
Proof.
  destruct (publish_empty 1700000000 0 0 (torflowaggregator_new "v3bw" 4 0.5%float))
    as (_ & Hprinted & _).
  - reflexivity.
  - exact Hprinted.
Defined.
